(** * RotatingS3Stream: a shallow embedding of [src/index.js]

    The class [RotatingS3Stream] appends to a local file and, on a timer or
    on request, swaps that file for a fresh one and copies the old one to S3
    with [aws s3 cp].  This development embeds the class as functions over an
    explicit state (the fields of [this] plus the part of the Node.js world
    the class talks to) and proves the properties of the specification.

    Conventions of the embedding:
    - the event loop is single threaded: every method and every callback runs
      to completion, and the clock does not advance inside one of them;
    - calls into [fs], [child_process], [node-schedule] and the emitter are
      recorded, in program order, in the [trace] of the world; the world also
      keeps the data these calls act on (file sizes, open write streams,
      running children, the [setImmediate] queue);
    - the requests to [fs] that Node serves in the background (the open of a
      write stream, [unlink]) are taken to be served in the order they were
      made and before the next handler runs, so they act on that data at the
      call; the open of a write stream is taken to succeed;
    - the class inherits [emit] and [on] from Node's [EventEmitter]: an
      [error] event emitted while no listener for [error] is attached makes
      [emit] throw, and the class attaches none itself;
    - an exception that leaves a handler is kept in the [thrown] list of the
      world; whether the process goes on after an uncaught one is the
      owner's choice, so the handlers that follow are still described;
    - integers (file sizes, millisecond timestamps) are [Z]; the two
      thresholds are JavaScript numbers, kept as [number] below, without the
      rounding of doubles. *)

From Stdlib Require Import ZArith QArith Bool Ascii String List Lia.
From stdpp Require Import gmap strings.
Import ListNotations.

Close Scope Q_scope.
Local Open Scope string_scope.
Local Open Scope list_scope.
Local Open Scope Z_scope.

(** ** JavaScript values *)

(** A JavaScript number: the non-finite values and the finite ones, the
    latter as exact rationals (every finite double is one). *)
Inductive number :=
| NaN
| PosInf
| NegInf
| Fin (q : Q).

(** [a > b] on numbers; any comparison with [NaN] is false. *)
Definition num_gt (a b : number) : bool :=
  match a, b with
  | NaN, _ | _, NaN => false
  | NegInf, _ => false
  | _, PosInf => false
  | PosInf, _ => true
  | Fin _, NegInf => true
  | Fin x, Fin y => negb (Qle_bool x y)
  end.

Definition of_Z (z : Z) : number := Fin (inject_Z z).

Arguments num_gt : simpl never.

(** A file-name generator: a JavaScript function of no argument.  Its result
    may depend on what it remembers (here: how many times it has been
    called) and on the clock (milliseconds since the epoch). *)
Definition generator := nat → Z → string.

Inductive value :=
| VUndefined
| VNull
| VBool (b : bool)
| VNumber (n : number)
| VString (s : string)
| VFunction (f : generator)
| VObject.

Inductive jstype :=
| TUndefined | TObject | TBoolean | TNumber | TString | TFunction.

Definition typeof (v : value) : jstype :=
  match v with
  | VUndefined => TUndefined
  | VNull => TObject
  | VBool _ => TBoolean
  | VNumber _ => TNumber
  | VString _ => TString
  | VFunction _ => TFunction
  | VObject => TObject
  end.

Definition jstype_eqb (a b : jstype) : bool :=
  match a, b with
  | TUndefined, TUndefined | TObject, TObject | TBoolean, TBoolean
  | TNumber, TNumber | TString, TString | TFunction, TFunction => true
  | _, _ => false
  end.

(** [!v]: JavaScript truthiness, negated. *)
Definition falsy (v : value) : bool :=
  match v with
  | VUndefined | VNull => true
  | VBool b => negb b
  | VNumber NaN => true
  | VNumber (Fin q) => Qeq_bool q 0
  | VNumber _ => false
  | VString s => String.eqb s ""
  | VFunction _ | VObject => false
  end.

(** [v > 0] for a value already known to be a number ([false] otherwise). *)
Definition gt_zero (v : value) : bool :=
  match v with
  | VNumber n => num_gt n (of_Z 0)
  | _ => false
  end.

(** [s.indexOf(sub)]: position of the first occurrence, [-1] when none. *)
Definition indexOf (s sub : string) : Z :=
  match String.index 0 sub s with
  | Some n => Z.of_nat n
  | None => -1
  end.

(** The options object handed to the constructor; an absent property reads
    as [VUndefined]. *)
Record options := {
  opt_localPrefix : value;
  opt_s3Prefix : value;
  opt_maxFileSize : value;
  opt_maxFileAge : value;
  opt_createFileName : value
}.

(** ** moment().format()

    The default generator formats the current local time as
    [YYYY-MM-DDTHH:mm:ssZ], e.g. [2014-09-08T08:02:17-05:00]: whole seconds,
    followed by the offset from UTC.  [offset] is that offset in minutes.
    Years are printed with four digits (0000 to 9999). *)

Definition digit (n : Z) : ascii := ascii_of_nat (48 + Z.to_nat (n mod 10)).

Definition pad2 (n : Z) : string :=
  String (digit (n / 10)) (String (digit n) EmptyString).

Definition pad4 (n : Z) : string := pad2 (n / 100) +:+ pad2 (n mod 100).

(** Proleptic Gregorian date of a day number (days since 1970-01-01). *)
Definition civil_from_days (days : Z) : Z * Z * Z :=
  let z := days + 719468 in
  let era := z / 146097 in
  let doe := z - era * 146097 in
  let yoe := (doe - doe / 1460 + doe / 36524 - doe / 146096) / 365 in
  let doy := doe - (365 * yoe + yoe / 4 - yoe / 100) in
  let mp := (5 * doy + 2) / 153 in
  let d := doy - (153 * mp + 2) / 5 + 1 in
  let m := if mp <? 10 then mp + 3 else mp - 9 in
  let y := yoe + era * 400 + (if m <=? 2 then 1 else 0) in
  (y, m, d).

Definition format_offset (offset : Z) : string :=
  (if offset <? 0 then "-" else "+")
    +:+ pad2 (Z.abs offset / 60) +:+ ":" +:+ pad2 (Z.abs offset mod 60).

Definition moment_format (offset now : Z) : string :=
  let secs := now / 1000 + offset * 60 in
  let '(y, m, d) := civil_from_days (secs / 86400) in
  let sod := secs mod 86400 in
  pad4 y +:+ "-" +:+ pad2 m +:+ "-" +:+ pad2 d +:+ "T"
    +:+ pad2 (sod / 3600) +:+ ":" +:+ pad2 (sod / 60 mod 60) +:+ ":" +:+ pad2 (sod mod 60)
    +:+ format_offset offset.

Arguments moment_format : simpl never.

(** ** The state: the fields of [this] and the world around it *)

(** A write stream returned by [fs.createWriteStream]. *)
Record handle := { h_id : nat; h_path : string }.

(** The argument of [rotate]: the two threshold rotations pass a string,
    [flush] passes an object [{ reason: ... }]. *)
Inductive reason :=
| ReasonText (s : string)
| ReasonObject (s : string).

(** The [code] given to a child's [close] listener: the exit status, or
    [null] when the child was ended by a signal. *)
Inductive exit_code :=
| Exited (status : Z)
| Signalled.

(** [code !== 0] *)
Definition code_nonzero (c : exit_code) : bool :=
  match c with
  | Exited status => negb (status =? 0)
  | Signalled => true
  end.

(** The object handed to [emit]; a property that the literal does not
    mention is [None]. *)
Record payload := {
  message : string;
  p_source : option string;
  p_destination : option string;
  p_reason : option reason;
  p_error : option string;
  p_code : option exit_code
}.

Definition msg (m : string) : payload :=
  {| message := m; p_source := None; p_destination := None;
     p_reason := None; p_error := None; p_code := None |}.

Inductive channel := Info | Error.

(** An exception that leaves a handler of the class: it goes to the owner
    when the handler is a method the owner called, and is uncaught when the
    handler is a callback. *)
Inductive exception :=
| UnhandledError (p : payload)    (* an [error] event without a listener *)
| InvalidCallback                 (* [fs.unlink(path)] where a callback is required *)
| UnlinkFailed (path : string).   (* the error of [fs.unlink], rethrown *)

(** The closure of one running [aws s3 cp]: the [source] and [destination]
    constants of the [rotate] call that spawned it. *)
Record child := { c_source : string; c_destination : string }.

(** Calls that leave the class, in the order they are made. *)
Inductive effect :=
| Emit (c : channel) (p : payload)
| MkdirpSync (dir : string)
| ScheduleJob (spec : string)
| Stat (path : string)
| CreateWriteStream (path flags : string)
| StreamEnd (h : handle)
| StreamWrite (h : handle) (data : string)
| SetImmediate
| Spawn (command : string) (args : list string)
| Unlink (path : string).

Record world := {
  now : Z;                  (* Date.now(), milliseconds *)
  utc_offset : Z;           (* local time zone, minutes east of UTC *)
  calls : nat;              (* calls made to the name generator so far *)
  fs : gmap string Z;       (* regular files: path to size in bytes *)
  next_fd : nat;
  opened : list handle;     (* write streams created and not ended *)
  immediates : nat;         (* queued [setImmediate] callbacks *)
  stats : list string;      (* [fs.stat] requests in flight *)
  children : list child;    (* [aws] processes spawned and not closed *)
  jobs : list string;       (* jobs registered with node-schedule *)
  error_listeners : nat;    (* listeners the owner attached for [error] *)
  callback_required : bool; (* the runtime refuses [fs] calls without callback *)
  thrown : list exception;  (* exceptions that left a handler *)
  trace : list effect
}.

Record engine := {
  createFileName : generator;
  localPrefix : string;
  maxFileSize : number;
  maxFileAge : number;
  s3Prefix : string;
  source : string;
  destination : string;
  created : Z;
  stream : option handle;   (* [undefined] before the first [createStream] *)
  empty : option bool       (* [undefined] before the first size check *)
}.

Record state := { this : engine; env : world }.

(** *** Field updates *)

Definition set_calls (v : nat) (w : world) : world :=
  {| now := now w; utc_offset := utc_offset w; calls := v; fs := fs w;
     next_fd := next_fd w; opened := opened w; immediates := immediates w;
     stats := stats w; children := children w; jobs := jobs w;
     error_listeners := error_listeners w;
     callback_required := callback_required w; thrown := thrown w;
     trace := trace w |}.

Definition set_now (v : Z) (w : world) : world :=
  {| now := v; utc_offset := utc_offset w; calls := calls w; fs := fs w;
     next_fd := next_fd w; opened := opened w; immediates := immediates w;
     stats := stats w; children := children w; jobs := jobs w;
     error_listeners := error_listeners w;
     callback_required := callback_required w; thrown := thrown w;
     trace := trace w |}.

Definition set_fs (v : gmap string Z) (w : world) : world :=
  {| now := now w; utc_offset := utc_offset w; calls := calls w; fs := v;
     next_fd := next_fd w; opened := opened w; immediates := immediates w;
     stats := stats w; children := children w; jobs := jobs w;
     error_listeners := error_listeners w;
     callback_required := callback_required w; thrown := thrown w;
     trace := trace w |}.

Definition set_next_fd (v : nat) (w : world) : world :=
  {| now := now w; utc_offset := utc_offset w; calls := calls w; fs := fs w;
     next_fd := v; opened := opened w; immediates := immediates w;
     stats := stats w; children := children w; jobs := jobs w;
     error_listeners := error_listeners w;
     callback_required := callback_required w; thrown := thrown w;
     trace := trace w |}.

Definition set_opened (v : list handle) (w : world) : world :=
  {| now := now w; utc_offset := utc_offset w; calls := calls w; fs := fs w;
     next_fd := next_fd w; opened := v; immediates := immediates w;
     stats := stats w; children := children w; jobs := jobs w;
     error_listeners := error_listeners w;
     callback_required := callback_required w; thrown := thrown w;
     trace := trace w |}.

Definition set_immediates (v : nat) (w : world) : world :=
  {| now := now w; utc_offset := utc_offset w; calls := calls w; fs := fs w;
     next_fd := next_fd w; opened := opened w; immediates := v;
     stats := stats w; children := children w; jobs := jobs w;
     error_listeners := error_listeners w;
     callback_required := callback_required w; thrown := thrown w;
     trace := trace w |}.

Definition set_stats (v : list string) (w : world) : world :=
  {| now := now w; utc_offset := utc_offset w; calls := calls w; fs := fs w;
     next_fd := next_fd w; opened := opened w; immediates := immediates w;
     stats := v; children := children w; jobs := jobs w;
     error_listeners := error_listeners w;
     callback_required := callback_required w; thrown := thrown w;
     trace := trace w |}.

Definition set_children (v : list child) (w : world) : world :=
  {| now := now w; utc_offset := utc_offset w; calls := calls w; fs := fs w;
     next_fd := next_fd w; opened := opened w; immediates := immediates w;
     stats := stats w; children := v; jobs := jobs w;
     error_listeners := error_listeners w;
     callback_required := callback_required w; thrown := thrown w;
     trace := trace w |}.

Definition set_jobs (v : list string) (w : world) : world :=
  {| now := now w; utc_offset := utc_offset w; calls := calls w; fs := fs w;
     next_fd := next_fd w; opened := opened w; immediates := immediates w;
     stats := stats w; children := children w; jobs := v;
     error_listeners := error_listeners w;
     callback_required := callback_required w; thrown := thrown w;
     trace := trace w |}.

Definition set_error_listeners (v : nat) (w : world) : world :=
  {| now := now w; utc_offset := utc_offset w; calls := calls w; fs := fs w;
     next_fd := next_fd w; opened := opened w; immediates := immediates w;
     stats := stats w; children := children w; jobs := jobs w;
     error_listeners := v; callback_required := callback_required w;
     thrown := thrown w; trace := trace w |}.

Definition set_thrown (v : list exception) (w : world) : world :=
  {| now := now w; utc_offset := utc_offset w; calls := calls w; fs := fs w;
     next_fd := next_fd w; opened := opened w; immediates := immediates w;
     stats := stats w; children := children w; jobs := jobs w;
     error_listeners := error_listeners w;
     callback_required := callback_required w; thrown := v;
     trace := trace w |}.

Definition set_trace (v : list effect) (w : world) : world :=
  {| now := now w; utc_offset := utc_offset w; calls := calls w; fs := fs w;
     next_fd := next_fd w; opened := opened w; immediates := immediates w;
     stats := stats w; children := children w; jobs := jobs w;
     error_listeners := error_listeners w;
     callback_required := callback_required w; thrown := thrown w;
     trace := v |}.

Definition set_source (v : string) (t : engine) : engine :=
  {| createFileName := createFileName t; localPrefix := localPrefix t;
     maxFileSize := maxFileSize t; maxFileAge := maxFileAge t;
     s3Prefix := s3Prefix t; source := v; destination := destination t;
     created := created t; stream := stream t; empty := empty t |}.

Definition set_destination (v : string) (t : engine) : engine :=
  {| createFileName := createFileName t; localPrefix := localPrefix t;
     maxFileSize := maxFileSize t; maxFileAge := maxFileAge t;
     s3Prefix := s3Prefix t; source := source t; destination := v;
     created := created t; stream := stream t; empty := empty t |}.

Definition set_created (v : Z) (t : engine) : engine :=
  {| createFileName := createFileName t; localPrefix := localPrefix t;
     maxFileSize := maxFileSize t; maxFileAge := maxFileAge t;
     s3Prefix := s3Prefix t; source := source t; destination := destination t;
     created := v; stream := stream t; empty := empty t |}.

Definition set_stream (v : option handle) (t : engine) : engine :=
  {| createFileName := createFileName t; localPrefix := localPrefix t;
     maxFileSize := maxFileSize t; maxFileAge := maxFileAge t;
     s3Prefix := s3Prefix t; source := source t; destination := destination t;
     created := created t; stream := v; empty := empty t |}.

Definition set_empty (v : option bool) (t : engine) : engine :=
  {| createFileName := createFileName t; localPrefix := localPrefix t;
     maxFileSize := maxFileSize t; maxFileAge := maxFileAge t;
     s3Prefix := s3Prefix t; source := source t; destination := destination t;
     created := created t; stream := stream t; empty := v |}.

Definition on_this (f : engine → engine) (s : state) : state :=
  {| this := f (this s); env := env s |}.

Definition on_env (f : world → world) (s : state) : state :=
  {| this := this s; env := f (env s) |}.

(** ** The collaborators: emitter, [fs], [child_process], timers *)

Definition record (e : effect) (w : world) : world :=
  set_trace (trace w ++ [e]) w.

(** What [emit] throws: an [error] event that no listener takes. *)
Definition unheard (c : channel) (p : payload) (w : world) : list exception :=
  match c with
  | Error => if Nat.eqb (error_listeners w) 0 then [UnhandledError p] else []
  | Info => []
  end.

(** [this.emit(channel, payload)], inherited from [EventEmitter]: the event
    goes to the listeners attached; an [error] event without a listener is
    thrown. *)
Definition emit (c : channel) (p : payload) (s : state) : state :=
  on_env (λ w, set_thrown (thrown w ++ unheard c p w) (record (Emit c p) w)) s.

Definition mkdirp_sync (dir : string) (w : world) : world :=
  record (MkdirpSync dir) w.

(** [schedule(spec, job)]: the only job of this class is [checkAndRotate]. *)
Definition schedule (spec : string) (w : world) : world :=
  record (ScheduleJob spec) (set_jobs (jobs w ++ [spec]) w).

(** [setImmediate(cb)]: the only callback of this class is the one of
    [createStream], so the queue is a count. *)
Definition setImmediate (w : world) : world :=
  record SetImmediate (set_immediates (S (immediates w)) w).

(** [fs.createWriteStream(path, { flags })] with a flag of the append family:
    the file is created empty when absent and kept as it is otherwise.  The
    open is taken to succeed (the directory of [path] is there and can be
    written) and to be served before the next handler runs. *)
Definition fs_createWriteStream (path flags : string) (w : world) : handle * world :=
  let h := {| h_id := next_fd w; h_path := path |} in
  let files := match fs w !! path with
               | Some _ => fs w
               | None => <[path := 0]> (fs w)
               end in
  (h, record (CreateWriteStream path flags)
        (set_opened (opened w ++ [h])
           (set_next_fd (S (next_fd w)) (set_fs files w)))).

Definition same_handle (a b : handle) : bool := Nat.eqb (h_id a) (h_id b).

(** [stream.end()] *)
Definition stream_end (h : handle) (w : world) : world :=
  record (StreamEnd h)
    (set_opened (List.filter (λ h', negb (same_handle h h')) (opened w)) w).

(** [stream.write(data)]: appends the bytes of [data] to the file the stream
    was opened on, while that file is still linked under its path. *)
Definition stream_write (h : handle) (data : string) (w : world) : world :=
  record (StreamWrite h data)
    (set_fs (alter (λ size, size + Z.of_nat (String.length data)) (h_path h) (fs w)) w).

(** What [fs.unlink(path)], called without a callback, throws: a type error
    at the call where the runtime requires the callback (Node 10 and later);
    the error of the removal elsewhere, which the default callback rethrows. *)
Definition unlink_error (path : string) (w : world) : list exception :=
  if callback_required w then [InvalidCallback]
  else match fs w !! path with
       | Some _ => []
       | None => [UnlinkFailed path]
       end.

(** The files after [fs.unlink(path)] without a callback: nothing is removed
    where the call is refused. *)
Definition unlink_files (path : string) (w : world) : gmap string Z :=
  if callback_required w then fs w else delete path (fs w).

(** [fs.unlink(path)], as the class calls it: without a callback.  Where the
    call is accepted the removal is served before the next handler runs. *)
Definition fs_unlink (path : string) (w : world) : world :=
  record (Unlink path)
    (set_thrown (thrown w ++ unlink_error path w) (set_fs (unlink_files path w) w)).

(** [fs.stat(path, callback)]: the request is queued; [callback] runs when
    the world completes it. *)
Definition fs_stat (path : string) (w : world) : world :=
  record (Stat path) (set_stats (stats w ++ [path]) w).

(** [spawn(command, args)] together with the listeners [rotate] attaches. *)
Definition spawn (command : string) (args : list string) (c : child) (w : world) : world :=
  record (Spawn command args) (set_children (children w ++ [c]) w).

(** [s.trim()], for the ASCII white space that [aws] prints. *)
Definition is_space (a : ascii) : bool :=
  let n := nat_of_ascii a in
  Nat.eqb n 32 || (Nat.leb 9 n && Nat.leb n 13).

Fixpoint trim_start (s : string) : string :=
  match s with
  | EmptyString => EmptyString
  | String a rest => if is_space a then trim_start rest else s
  end.

Fixpoint trim_end (s : string) : string :=
  match s with
  | EmptyString => EmptyString
  | String a rest =>
      match trim_end rest with
      | EmptyString => if is_space a then EmptyString else String a EmptyString
      | rest' => String a rest'
      end
  end.

Definition trim (s : string) : string := trim_end (trim_start s).

(** ** The methods of [RotatingS3Stream] *)

(** The callback that [createStream] hands to [setImmediate]; it reads
    [this.source] and [this.destination] when it runs. *)
Definition created_callback (s : state) : state :=
  emit Info {| message := "Created new write stream";
               p_source := Some (source (this s));
               p_destination := Some (destination (this s));
               p_reason := None; p_error := None; p_code := None |} s.

Definition createStream (s : state) : state :=
  let fileName := createFileName (this s) (calls (env s)) (now (env s)) in
  let s := on_env (set_calls (S (calls (env s)))) s in
  let s := on_this (set_source (localPrefix (this s) +:+ "/" +:+ fileName)) s in
  let s := on_this (set_destination (s3Prefix (this s) +:+ "/" +:+ fileName)) s in
  let s := on_this (set_created (now (env s))) s in
  let s := match stream (this s) with
           | Some old => on_env (stream_end old) s
           | None => s
           end in
  let (h, w) := fs_createWriteStream (source (this s)) "a" (env s) in
  let s := {| this := set_stream (Some h) (this s); env := w |} in
  on_env setImmediate s.

(** [!this.empty] *)
Definition not_empty (flag : option bool) : bool :=
  match flag with
  | Some true => false
  | Some false | None => true
  end.

(** The [close] listener of a child. *)
Definition close_callback (c : child) (code : exit_code) (s : state) : state :=
  if code_nonzero code then
    emit Error {| message := "AWS S3 cp failed";
                  p_source := Some (c_source c);
                  p_destination := Some (c_destination c);
                  p_reason := None; p_error := None; p_code := Some code |} s
  else
    let s := emit Info {| message := "Rotated and synced stream to s3";
                          p_source := Some (c_source c);
                          p_destination := Some (c_destination c);
                          p_reason := None; p_error := None; p_code := None |} s in
    on_env (fs_unlink (c_source c)) s.

(** The [data] listeners on the child's [stdout] and [stderr]. *)
Definition stdout_callback (data : string) (s : state) : state :=
  emit Info (msg (trim data)) s.

Definition stderr_callback (data : string) (s : state) : state :=
  emit Error (msg (trim data)) s.

Definition rotate (why : reason) (s : state) : state :=
  let s := emit Info {| message := "Rotating stream";
                        p_source := Some (source (this s));
                        p_destination := Some (destination (this s));
                        p_reason := Some why; p_error := None; p_code := None |} s in
  let source0 := source (this s) in
  let destination0 := destination (this s) in
  let s := createStream s in
  if not_empty (empty (this s)) then
    on_env (spawn "aws" ["s3"; "cp"; source0; destination0]
              {| c_source := source0; c_destination := destination0 |}) s
  else
    let s := emit Info {| message := "Rotating empty local stream without S3 sync";
                          p_source := Some source0;
                          p_destination := None;
                          p_reason := None; p_error := None; p_code := None |} s in
    on_env (fs_unlink source0) s.

(** What [fs.stat] hands to its callback: an error, or the file's status, of
    which only [size] is read. *)
Inductive stat_result :=
| StatFailed (error : string)
| StatOk (size : Z).

(** [Math.floor((Date.now() - this.created) / 1000)]: both operands are whole
    milliseconds, and [/] on [Z] rounds down. *)
Definition ageInSeconds (s : state) : Z :=
  (now (env s) - created (this s)) / 1000.

(** The callback of [checkAndRotate]. *)
Definition stat_callback (r : stat_result) (s : state) : state :=
  match r with
  | StatFailed error =>
      emit Error {| message := "fs.stat failed";
                    p_source := Some (source (this s));
                    p_destination := None; p_reason := None;
                    p_error := Some error; p_code := None |} s
  | StatOk size =>
      let age := ageInSeconds s in
      let s := on_this (set_empty (Some (size =? 0))) s in
      if num_gt (of_Z age) (maxFileAge (this s)) then
        rotate (ReasonText "Max file age reached") s
      else if num_gt (of_Z size) (maxFileSize (this s)) then
        rotate (ReasonText "Max file size reached") s
      else s
  end.

Definition checkAndRotate (s : state) : state :=
  on_env (fs_stat (source (this s))) s.

(** [this.stream] is set from the constructor on; the [None] case is there
    for totality. *)
Definition write (data : string) (s : state) : state :=
  match stream (this s) with
  | Some h => on_env (stream_write h data) s
  | None => s
  end.

Definition flush (s : state) : state :=
  rotate (ReasonObject "External flush request") s.

(** *** The constructor *)

Inductive result (A : Type) :=
| Return (a : A)
| Throw (message : string).
Arguments Return {A} a.
Arguments Throw {A} message.

(** Computations over the world that may throw. *)
Definition M (A : Type) : Type := world → result A * world.

Definition ret {A} (a : A) : M A := λ w, (Return a, w).

Definition throw {A} (message : string) : M A := λ w, (Throw message, w).

Definition bind {A B} (m : M A) (k : A → M B) : M B :=
  λ w, match m w with
       | (Return a, w') => k a w'
       | (Throw e, w') => (Throw e, w')
       end.

#[global] Instance M_ret : MRet M := @ret.
#[global] Instance M_bind : MBind M := λ A B k m, bind m k.

Definition when (b : bool) (m : M unit) : M unit := if b then m else ret tt.

Definition perform (f : world → world) : M unit := λ w, (Return tt, f w).

Definition call (f : state → state) (t : engine) : M engine :=
  λ w, let s := f {| this := t; env := w |} in (Return (this s), env s).

Definition get_utc_offset : M Z := λ w, (Return (utc_offset w), w).

(** Reading a validated option into the field that keeps it. *)
Definition as_string (v : value) : string :=
  match v with VString s => s | _ => "" end.

Definition as_number (v : value) : number :=
  match v with VNumber n => n | _ => NaN end.

Definition as_function (v : value) (default : generator) : generator :=
  match v with VFunction f => f | _ => default end.

(** The assignments to [this] that follow the validation block; the fields
    that [createStream] sets come later. *)
Definition assign (opts : options) (offset : Z) : engine :=
  {| createFileName :=
       if falsy (opt_createFileName opts)
       then (λ _ t, moment_format offset t)
       else as_function (opt_createFileName opts) (λ _ t, moment_format offset t);
     localPrefix := as_string (opt_localPrefix opts);
     maxFileSize := as_number (opt_maxFileSize opts);
     maxFileAge := as_number (opt_maxFileAge opts);
     s3Prefix := as_string (opt_s3Prefix opts);
     source := ""; destination := ""; created := 0;
     stream := None; empty := None |}.

Definition constructor (opts : options) : M engine :=
  when (negb (jstype_eqb (typeof (opt_localPrefix opts)) TString))
    (throw "localPrefix must be a string");;
  when (negb (jstype_eqb (typeof (opt_maxFileSize opts)) TNumber)
        || negb (gt_zero (opt_maxFileSize opts)))
    (throw "maxFileSize must be a number greater than 0");;
  when (negb (jstype_eqb (typeof (opt_maxFileAge opts)) TNumber)
        || negb (gt_zero (opt_maxFileAge opts)))
    (throw "maxFileAge must be a number greater than 0");;
  when (negb (jstype_eqb (typeof (opt_s3Prefix opts)) TString)
        || (indexOf (as_string (opt_s3Prefix opts)) "s3://" =? -1))
    (throw "s3Prefix must be a valid s3 prefix in the form: s3://<bucket><prefix>");;
  when (negb (jstype_eqb (typeof (opt_createFileName opts)) TUndefined)
        && negb (jstype_eqb (typeof (opt_createFileName opts)) TFunction))
    (throw "createFileName must be a function");;
  offset ← get_utc_offset;
  let t := assign opts offset in
  perform (mkdirp_sync (localPrefix t));;
  t ← call createStream t;
  perform (schedule "* * * * *");;
  mret t.

(** ** The event loop

    What can happen to a constructed engine, one handler at a time. *)

Inductive action :=
| CallWrite (data : string)               (* the owner calls [write(data)] *)
| CallFlush                               (* the owner calls [flush()] *)
| Tick                                    (* node-schedule runs its jobs *)
| StatDone (failure : option string)      (* the oldest [fs.stat] completes *)
| Immediate                               (* a [setImmediate] callback runs *)
| ChildStdout (i : nat) (data : string)   (* child [i] prints *)
| ChildStderr (i : nat) (data : string)
| ChildClose (i : nat) (code : exit_code) (* child [i] ends *)
| Advance (ms : N)                        (* time passes *)
| Remove (path : string)                  (* someone else removes a file *)
| CallOn (c : channel)                    (* the owner calls [on(c, listener)] *)
| CallOff (c : channel).                  (* the owner removes such a listener *)

(** The answer of [fs.stat] for [path]: the failure the world imposes, or
    else what the file system holds. *)
Definition stat_of (failure : option string) (path : string) (w : world) : stat_result :=
  match failure with
  | Some error => StatFailed error
  | None =>
      match fs w !! path with
      | Some size => StatOk size
      | None => StatFailed "ENOENT"
      end
  end.

Definition step (a : action) (s : state) : state :=
  match a with
  | CallWrite data => write data s
  | CallFlush => flush s
  | Tick => List.fold_left (λ s' _, checkAndRotate s') (jobs (env s)) s
  | StatDone failure =>
      match stats (env s) with
      | [] => s
      | path :: rest =>
          stat_callback (stat_of failure path (env s)) (on_env (set_stats rest) s)
      end
  | Immediate =>
      match immediates (env s) with
      | O => s
      | S n => created_callback (on_env (set_immediates n) s)
      end
  | ChildStdout i data =>
      match children (env s) !! i with
      | Some _ => stdout_callback data s
      | None => s
      end
  | ChildStderr i data =>
      match children (env s) !! i with
      | Some _ => stderr_callback data s
      | None => s
      end
  | ChildClose i code =>
      match children (env s) !! i with
      | Some c => close_callback c code (on_env (set_children (delete i (children (env s)))) s)
      | None => s
      end
  | Advance ms => on_env (set_now (now (env s) + Z.of_N ms)) s
  | Remove path => on_env (set_fs (delete path (fs (env s)))) s
  | CallOn Error => on_env (set_error_listeners (S (error_listeners (env s)))) s
  | CallOff Error => on_env (set_error_listeners (Nat.pred (error_listeners (env s)))) s
  | CallOn Info | CallOff Info => s
  end.

Definition run (actions : list action) (s : state) : state :=
  List.fold_left (λ s' a, step a s') actions s.

(** [new RotatingS3Stream(opts)] in world [w]: the new engine and the world
    it leaves, when it does not throw. *)
Definition new (opts : options) (w : world) : option state :=
  match constructor opts w with
  | (Return t, w') => Some {| this := t; env := w' |}
  | (Throw _, _) => None
  end.

(** *** What a trace contains *)

(** The calls made on the way from state [before] to state [after]. *)
Definition since (before : state) (after : state) : list effect :=
  drop (length (trace (env before))) (trace (env after)).

(** Reasons of the rotations announced in a list of calls, in order. *)
Definition rotations (l : list effect) : list reason :=
  List.flat_map
    (λ e, match e with
          | Emit Info p =>
              if String.eqb (message p) "Rotating stream"
              then match p_reason p with Some why => [why] | None => [] end
              else []
          | _ => []
          end) l.

(** The arguments of the uploads dispatched in a list of calls. *)
Definition uploads (l : list effect) : list (string * string) :=
  List.flat_map
    (λ e, match e with
          | Spawn "aws" ["s3"; "cp"; from; to] => [(from, to)]
          | _ => []
          end) l.

(** The paths removed in a list of calls. *)
Definition unlinked (l : list effect) : list string :=
  List.flat_map (λ e, match e with Unlink path => [path] | _ => [] end) l.

(** The events sent to a channel in a list of calls. *)
Definition emitted (c : channel) (l : list effect) : list payload :=
  List.flat_map
    (λ e, match e, c with
          | Emit Info p, Info | Emit Error p, Error => [p]
          | _, _ => []
          end) l.

(** The source and destination announced by the rotations in a list of
    calls: the files they supersede. *)
Definition superseded (l : list effect) : list (option string * option string) :=
  List.flat_map
    (λ e, match e with
          | Emit Info p =>
              if String.eqb (message p) "Rotating stream"
              then [(p_source p, p_destination p)] else []
          | _ => []
          end) l.

(** ** A running example *)

Definition boot : world :=
  {| now := 1410181337000; utc_offset := 0; calls := 0; fs := ∅; next_fd := 3;
     opened := []; immediates := 0; stats := []; children := []; jobs := [];
     error_listeners := 0; callback_required := false; thrown := [];
     trace := [] |}.

Definition sample : options :=
  {| opt_localPrefix := VString "logs";
     opt_s3Prefix := VString "s3://bucket/logs";
     opt_maxFileSize := VNumber (of_Z 1000);
     opt_maxFileAge := VNumber (of_Z 60);
     opt_createFileName := VUndefined |}.

Definition started : state :=
  match new sample boot with
  | Some s => s
  | None => {| this := {| createFileName := λ _ _, ""; localPrefix := "";
                          maxFileSize := NaN; maxFileAge := NaN; s3Prefix := "";
                          source := ""; destination := ""; created := 0;
                          stream := None; empty := None |};
               env := boot |}
  end.

(** ** Notions and scenarios used in the statements *)

(** The name the generator returns when called in state [s]. *)
Definition next_name (s : state) : string :=
  createFileName (this s) (calls (env s)) (now (env s)).

Definition next_source (s : state) : string :=
  localPrefix (this s) +:+ "/" +:+ next_name s.

Definition next_destination (s : state) : string :=
  s3Prefix (this s) +:+ "/" +:+ next_name s.

(** The calls of [createStream] in state [s]. *)
Definition swap_calls (s : state) : list effect :=
  match stream (this s) with
  | Some old => [StreamEnd old]
  | None => []
  end ++ [CreateWriteStream (next_source s) "a"; SetImmediate].

(** The calls of [rotate] after the swap, by the flag [this.empty]. *)
Definition handoff_calls (s : state) : list effect :=
  if not_empty (empty (this s)) then
    [Spawn "aws" ["s3"; "cp"; source (this s); destination (this s)]]
  else
    [Emit Info {| message := "Rotating empty local stream without S3 sync";
                  p_source := Some (source (this s));
                  p_destination := None;
                  p_reason := None; p_error := None; p_code := None |};
     Unlink (source (this s))].

Definition announce (why : reason) (s : state) : effect :=
  Emit Info {| message := "Rotating stream";
               p_source := Some (source (this s));
               p_destination := Some (destination (this s));
               p_reason := Some why; p_error := None; p_code := None |}.

(** The state in which the callback takes its decision: the flag refreshed
    from the size just read. *)
Definition checked (size : Z) (s : state) : state :=
  on_this (set_empty (Some (size =? 0))) s.

Definition max_age : reason := ReasonText "Max file age reached".
Definition max_size : reason := ReasonText "Max file size reached".

(** Two states that differ at most in the trace, in the exceptions thrown
    and in the queue of pending [fs.stat] requests. *)
Definition agree (a b : state) : Prop :=
  this a = this b
  ∧ set_stats [] (set_thrown [] (set_trace [] (env a))) =
    set_stats [] (set_thrown [] (set_trace [] (env b))).

(** The calls of the callback of [checkAndRotate]. *)
Definition callback_calls (r : stat_result) (s : state) : list effect :=
  match r with
  | StatFailed error =>
      [Emit Error {| message := "fs.stat failed";
                     p_source := Some (source (this s));
                     p_destination := None; p_reason := None;
                     p_error := Some error; p_code := None |}]
  | StatOk size =>
      let s' := checked size s in
      if num_gt (of_Z (ageInSeconds s)) (maxFileAge (this s)) then
        announce max_age s' :: swap_calls s' ++ handoff_calls s'
      else if num_gt (of_Z size) (maxFileSize (this s)) then
        announce max_size s' :: swap_calls s' ++ handoff_calls s'
      else []
  end.

(** The running example, one tick later, its file removed by someone else
    while the size query is in flight. *)
Definition file_removed : state :=
  run [Tick; Remove "logs/2014-09-08T13:02:17+00:00"] started.

(** The same, on an engine whose owner listens for [error]. *)
Definition file_removed_heard : state :=
  run [CallOn Error; Tick; Remove "logs/2014-09-08T13:02:17+00:00"] started.

(** The running example five seconds later, flushed: one upload in flight. *)
Definition flushed : state := run [Advance 5000; CallFlush] started.

Definition is_string (v : value) : Prop := ∃ s, v = VString s.

(** A number greater than 0: a positive finite number or [Infinity]. *)
Definition is_positive_number (v : value) : Prop :=
  v = VNumber PosInf ∨ ∃ q, v = VNumber (Fin q) ∧ (0 < q)%Q.

(** [sub] occurs in [s] at some position. *)
Definition occurs (sub s : string) : Prop :=
  ∃ m : nat, String.substring m (String.length sub) s = sub.

Definition optional_function (v : value) : Prop :=
  v = VUndefined ∨ ∃ f, v = VFunction f.

(** Options that the validation block rejects for one of its five reasons. *)
Definition rejected (opts : options) : Prop :=
  ¬ is_string (opt_localPrefix opts)
  ∨ ¬ is_positive_number (opt_maxFileSize opts)
  ∨ ¬ is_positive_number (opt_maxFileAge opts)
  ∨ (∀ s, opt_s3Prefix opts = VString s → ¬ occurs "s3://" s)
  ∨ ¬ optional_function (opt_createFileName opts).

(** Options in the documented form: [s3Prefix] starts with [s3://]. *)
Definition documented (opts : options) : Prop :=
  is_string (opt_localPrefix opts)
  ∧ is_positive_number (opt_maxFileSize opts)
  ∧ is_positive_number (opt_maxFileAge opts)
  ∧ (∃ s, opt_s3Prefix opts = VString s ∧ String.prefix "s3://" s = true)
  ∧ optional_function (opt_createFileName opts).

(** The five tests of the validation block, as the constructor writes them. *)
Definition bad_localPrefix (opts : options) : bool :=
  negb (jstype_eqb (typeof (opt_localPrefix opts)) TString).

Definition bad_threshold (v : value) : bool :=
  negb (jstype_eqb (typeof v) TNumber) || negb (gt_zero v).

Definition bad_s3Prefix (opts : options) : bool :=
  negb (jstype_eqb (typeof (opt_s3Prefix opts)) TString)
  || (indexOf (as_string (opt_s3Prefix opts)) "s3://" =? -1).

Definition bad_createFileName (opts : options) : bool :=
  negb (jstype_eqb (typeof (opt_createFileName opts)) TUndefined)
  && negb (jstype_eqb (typeof (opt_createFileName opts)) TFunction).

(** The state in which a constructor that passed validation leaves. *)
Definition constructed (opts : options) (w : world) : state :=
  let t := assign opts (utc_offset w) in
  on_env (schedule "* * * * *")
    (createStream {| this := t; env := mkdirp_sync (localPrefix t) w |}).



(** The running example with [maxFileSize: 0]. *)
Definition zero_size : options :=
  {| opt_localPrefix := VString "logs";
     opt_s3Prefix := VString "s3://bucket/logs";
     opt_maxFileSize := VNumber (of_Z 0);
     opt_maxFileAge := VNumber (of_Z 60);
     opt_createFileName := VUndefined |}.

(** The running example with [localPrefix: '']. *)
Definition no_directory : options :=
  {| opt_localPrefix := VString "";
     opt_s3Prefix := VString "s3://bucket/logs";
     opt_maxFileSize := VNumber (of_Z 1000);
     opt_maxFileAge := VNumber (of_Z 60);
     opt_createFileName := VUndefined |}.

(** The flag after one handler: only a size query that succeeds writes it. *)
Definition empty_after (a : action) (s : state) : option bool :=
  match a, stats (env s) with
  | StatDone failure, path :: _ =>
      match stat_of failure path (env s) with
      | StatOk size => Some (size =? 0)
      | StatFailed _ => empty (this s)
      end
  | _, _ => empty (this s)
  end.

Definition is_stat_done (a : action) : bool :=
  match a with StatDone _ => true | _ => false end.

(** The state [s] with the file under [this.source] given the size [size]. *)
Definition with_size (size : Z) (s : state) : state :=
  on_env (λ w, set_fs (<[source (this s) := size]> (fs w)) w) s.

(** The running example five seconds after construction: nothing written,
    no size query made yet. *)
Definition idle : state := run [Advance 5000] started.

(** The size of the file under [this.source], when there is one. *)
Definition current_size (s : state) : option Z := fs (env s) !! source (this s).

(** The running example after a tick that found the file empty and young,
    then a write of five bytes, five seconds before a flush. *)
Definition written : state :=
  run [Tick; StatDone None; CallWrite "hello"; Advance 5000] started.

(** Exactly one write stream is open, it is the one [this.stream] holds, and
    it writes to [this.source]; source and destination are the two prefixes
    joined to the same generated name. *)
Definition active (s : state) : Prop :=
  ∃ (h : handle) (name : string),
    opened (env s) = [h]
    ∧ stream (this s) = Some h
    ∧ h_path h = source (this s)
    ∧ (h_id h < next_fd (env s))%nat
    ∧ source (this s) = localPrefix (this s) +:+ "/" +:+ name
    ∧ destination (this s) = s3Prefix (this s) +:+ "/" +:+ name.

(** The fields the constructor sets once and for all. *)
Definition config (t : engine) : generator * string * number * number * string :=
  (createFileName t, localPrefix t, maxFileSize t, maxFileAge t, s3Prefix t).

Definition flush_reason : reason := ReasonObject "External flush request".

(** ** The calls of one handler *)

Definition created_event (s : state) : effect :=
  Emit Info {| message := "Created new write stream";
               p_source := Some (source (this s));
               p_destination := Some (destination (this s));
               p_reason := None; p_error := None; p_code := None |}.

(** The calls the [close] listener of child [c] makes. *)
Definition close_calls (c : child) (code : exit_code) : list effect :=
  if code_nonzero code then
    [Emit Error {| message := "AWS S3 cp failed";
                   p_source := Some (c_source c);
                   p_destination := Some (c_destination c);
                   p_reason := None; p_error := None; p_code := Some code |}]
  else
    [Emit Info {| message := "Rotated and synced stream to s3";
                  p_source := Some (c_source c);
                  p_destination := Some (c_destination c);
                  p_reason := None; p_error := None; p_code := None |};
     Unlink (c_source c)].

(** The calls handler [a] makes when it runs in state [s]. *)
Definition step_calls (a : action) (s : state) : list effect :=
  match a with
  | CallWrite data =>
      match stream (this s) with
      | Some h => [StreamWrite h data]
      | None => []
      end
  | CallFlush => announce flush_reason s :: swap_calls s ++ handoff_calls s
  | Tick => List.map (λ _, Stat (source (this s))) (jobs (env s))
  | StatDone failure =>
      match stats (env s) with
      | [] => []
      | path :: _ => callback_calls (stat_of failure path (env s)) s
      end
  | Immediate =>
      match immediates (env s) with
      | O => []
      | S _ => [created_event s]
      end
  | ChildStdout i data =>
      match children (env s) !! i with
      | Some _ => [Emit Info (msg (trim data))]
      | None => []
      end
  | ChildStderr i data =>
      match children (env s) !! i with
      | Some _ => [Emit Error (msg (trim data))]
      | None => []
      end
  | ChildClose i code =>
      match children (env s) !! i with
      | Some c => close_calls c code
      | None => []
      end
  | Advance _ | Remove _ | CallOn _ | CallOff _ => []
  end.

(** The calls a sequence of handlers makes, started in state [s]. *)
Fixpoint run_calls (actions : list action) (s : state) : list effect :=
  match actions with
  | [] => []
  | a :: rest => step_calls a s ++ run_calls rest (step a s)
  end.

(** ** Where the engine reads, writes and uploads *)

(** [path] is [lp/name] for some name. *)
Definition local_file (lp path : string) : Prop :=
  ∃ name, path = lp +:+ "/" +:+ name.

(** [from] and [to] are [lp/name] and [sp/name] for one and the same name. *)
Definition mirrored (lp sp from to : string) : Prop :=
  ∃ name, from = lp +:+ "/" +:+ name ∧ to = sp +:+ "/" +:+ name.

(** A call that touches no file but one of [lp], and uploads nothing but a
    file of [lp] to the object of the same name under [sp]. *)
Definition contained (lp sp : string) (e : effect) : Prop :=
  match e with
  | CreateWriteStream path _ | Unlink path | Stat path => local_file lp path
  | StreamEnd h | StreamWrite h _ => local_file lp (h_path h)
  | Spawn command args =>
      ∃ from to, command = "aws" ∧ args = ["s3"; "cp"; from; to]
                 ∧ mirrored lp sp from to
  | Emit _ _ | MkdirpSync _ | ScheduleJob _ | SetImmediate => True
  end.

(** What holds of every state of an engine with the prefixes [lp] and [sp]:
    one active file, and running uploads and pending size queries that are
    about files of [lp]. *)
Definition tidy (lp sp : string) (s : state) : Prop :=
  localPrefix (this s) = lp
  ∧ s3Prefix (this s) = sp
  ∧ active s
  ∧ Forall (λ c, mirrored lp sp (c_source c) (c_destination c)) (children (env s))
  ∧ Forall (local_file lp) (stats (env s)).

(** The calls made since the world [w] in which the engine was built. *)
Definition since_boot (w : world) (s : state) : list effect :=
  drop (length (trace w)) (trace (env s)).

(** A world in which no other engine is at work. *)
Definition quiet (w : world) : Prop :=
  opened w = [] ∧ children w = [] ∧ stats w = [] ∧ jobs w = [] ∧ immediates w = O.

(** ** Files *)

(** The files after a stream is opened on [path] for appending. *)
Definition touched (path : string) (files : gmap string Z) : gmap string Z :=
  match files !! path with
  | Some _ => files
  | None => <[path := 0]> files
  end.

(** The number of bytes of [data]. *)
Definition bytes (data : string) : Z := Z.of_nat (String.length data).




(** ** Streams and their [created] events *)

Definition is_open (e : effect) : bool :=
  match e with CreateWriteStream _ _ => true | _ => false end.

(** The event of the [setImmediate] callback: its message, with a source. *)
Definition is_created (e : effect) : bool :=
  match e with
  | Emit Info p =>
      match p_source p with
      | Some _ => String.eqb (message p) "Created new write stream"
      | None => false
      end
  | _ => false
  end.

Definition count (f : effect → bool) (l : list effect) : nat :=
  length (List.filter f l).

(** ** Thresholds and messages *)

(** The rotations handler [a] announces when it runs in state [s]. *)
Definition step_rotations (a : action) (s : state) : list reason :=
  match a with
  | CallFlush => [flush_reason]
  | StatDone failure =>
      match stats (env s) with
      | [] => []
      | path :: _ =>
          match stat_of failure path (env s) with
          | StatFailed _ => []
          | StatOk size =>
              if num_gt (of_Z (ageInSeconds s)) (maxFileAge (this s)) then [max_age]
              else if num_gt (of_Z size) (maxFileSize (this s)) then [max_size]
              else []
          end
      end
  | _ => []
  end.

(** The running example with [maxFileAge: Infinity]. *)
Definition ageless : options :=
  {| opt_localPrefix := VString "logs";
     opt_s3Prefix := VString "s3://bucket/logs";
     opt_maxFileSize := VNumber (of_Z 1000);
     opt_maxFileAge := VNumber PosInf;
     opt_createFileName := VUndefined |}.

(** The first of the five tests that fails, with the message it throws. *)
Definition first_failure (opts : options) : option string :=
  if bad_localPrefix opts then Some "localPrefix must be a string"
  else if bad_threshold (opt_maxFileSize opts)
       then Some "maxFileSize must be a number greater than 0"
  else if bad_threshold (opt_maxFileAge opts)
       then Some "maxFileAge must be a number greater than 0"
  else if bad_s3Prefix opts
       then Some "s3Prefix must be a valid s3 prefix in the form: s3://<bucket><prefix>"
  else if bad_createFileName opts then Some "createFileName must be a function"
  else None.

(** ** Uploads in flight *)

Definition is_close (a : action) : bool :=
  match a with ChildClose _ _ => true | _ => false end.

(** The running example with [maxFileSize: 10]. *)
Definition small_files : options :=
  {| opt_localPrefix := VString "logs";
     opt_s3Prefix := VString "s3://bucket/logs";
     opt_maxFileSize := VNumber (of_Z 10);
     opt_maxFileAge := VNumber (of_Z 60);
     opt_createFileName := VUndefined |}.

(** An engine for small files, five seconds after twelve bytes were written. *)
Definition large_file : state :=
  run [CallWrite "hello, world"; Advance 5000] (constructed small_files boot).

(** * Properties *)

(** ** The running example *)

Example moment_format_epoch : moment_format 0 0 = "1970-01-01T00:00:00+00:00".
Proof. reflexivity. Qed.

Example moment_format_doc :
  moment_format (-300) 1410181337000 = "2014-09-08T08:02:17-05:00".
Proof. vm_compute. reflexivity. Qed.

Lemma started_new : new sample boot = Some started.
Proof. reflexivity. Qed.

Example started_source : source (this started) = "logs/2014-09-08T13:02:17+00:00".
Proof. vm_compute. reflexivity. Qed.

Example started_trace :
  trace (env started) =
    [MkdirpSync "logs"; CreateWriteStream "logs/2014-09-08T13:02:17+00:00" "a";
     SetImmediate; ScheduleJob "* * * * *"].
Proof. vm_compute. reflexivity. Qed.

(** ** Numbers *)

Lemma num_gt_of_Z (a b : Z) : num_gt (of_Z a) (of_Z b) = (b <? a).
Proof.
  unfold num_gt, of_Z.
  destruct (Z.ltb_spec b a) as [Hlt | Hle].
  - apply negb_true_iff. apply not_true_is_false. intros H.
    apply Qle_bool_iff in H. rewrite <- Zle_Qle in H. lia.
  - apply negb_false_iff. apply Qle_bool_iff. rewrite <- Zle_Qle. exact Hle.
Qed.

(** ** What one call of [createStream] and of [rotate] does *)

Lemma since_app (s s' : state) (l : list effect) :
  trace (env s') = trace (env s) ++ l → since s s' = l.
Proof. intros H. unfold since. rewrite H. apply drop_app_length. Qed.

(** Opening a state into the fields of [this] and the world. *)
Ltac open_state s :=
  let gen := fresh "gen" in let lp := fresh "lp" in
  let mfs := fresh "mfs" in let mfa := fresh "mfa" in
  let sp := fresh "sp" in let src := fresh "src" in
  let dst := fresh "dst" in let crt := fresh "crt" in
  let str := fresh "str" in let emp := fresh "emp" in
  let w := fresh "w" in
  destruct s as [[gen lp mfs mfa sp src dst crt str emp] w];
  destruct str as [? |]; cbn in *.

Lemma createStream_trace (s : state) :
  trace (env (createStream s)) = trace (env s) ++ swap_calls s.
Proof.
  open_state s; unfold createStream, swap_calls, next_source, next_name; cbn;
    rewrite <- ?app_assoc; reflexivity.
Qed.

Lemma createStream_this (s : state) :
  this (createStream s) =
    set_stream (Some {| h_id := next_fd (env s); h_path := next_source s |})
      (set_created (now (env s))
         (set_destination (next_destination s)
            (set_source (next_source s) (this s)))).
Proof. open_state s; reflexivity. Qed.

Lemma rotate_trace (why : reason) (s : state) :
  trace (env (rotate why s)) =
    trace (env s) ++ announce why s :: swap_calls s ++ handoff_calls s.
Proof.
  open_state s; destruct emp as [[|] |];
    unfold rotate, handoff_calls, announce, swap_calls; cbn;
    rewrite <- ?app_assoc; reflexivity.
Qed.

Lemma rotate_this (why : reason) (s : state) :
  this (rotate why s) = this (createStream s).
Proof. open_state s; destruct emp as [[|] |]; reflexivity. Qed.

Lemma rotations_rotate (why : reason) (s : state) :
  rotations (announce why s :: swap_calls s ++ handoff_calls s) = [why].
Proof. open_state s; destruct emp as [[|] |]; reflexivity. Qed.

Lemma rotate_rotations (why : reason) (s0 s : state) :
  trace (env s) = trace (env s0) →
  rotations (since s0 (rotate why s)) = [why].
Proof.
  intros Htrace. rewrite (since_app s0 (rotate why s) _ (eq_trans (rotate_trace why s)
    (f_equal (λ l, l ++ _) Htrace))).
  apply rotations_rotate.
Qed.

Lemma since_refl (s0 s : state) :
  trace (env s) = trace (env s0) → since s0 s = [].
Proof. intros H. apply since_app. rewrite H. symmetry. apply app_nil_r. Qed.

(** ** The size and age check *)

Lemma stat_callback_ok (s : state) (size : Z) :
  stat_callback (StatOk size) s =
    if num_gt (of_Z (ageInSeconds s)) (maxFileAge (this s))
    then rotate max_age (checked size s)
    else if num_gt (of_Z size) (maxFileSize (this s))
         then rotate max_size (checked size s)
         else checked size s.
Proof. reflexivity. Qed.

Lemma stat_callback_rotations (s : state) (size : Z) :
  rotations (since s (stat_callback (StatOk size) s)) =
    if num_gt (of_Z (ageInSeconds s)) (maxFileAge (this s)) then [max_age]
    else if num_gt (of_Z size) (maxFileSize (this s)) then [max_size]
    else [].
Proof.
  rewrite stat_callback_ok.
  destruct (num_gt (of_Z (ageInSeconds s)) (maxFileAge (this s)));
    [now apply rotate_rotations |].
  destruct (num_gt (of_Z size) (maxFileSize (this s)));
    [now apply rotate_rotations | now rewrite since_refl].
Qed.

(** C4.  When the size query succeeds the decision is taken in a fixed order
    and the first match wins: an age above [maxFileAge] gives one rotation
    with the max-age reason; otherwise a size above [maxFileSize] gives one
    rotation with the max-size reason; otherwise nothing is rotated.  With
    both thresholds exceeded the one rotation is the age rotation. *)
Theorem decision_order (s : state) (size : Z) :
  let old := num_gt (of_Z (ageInSeconds s)) (maxFileAge (this s)) in
  let large := num_gt (of_Z size) (maxFileSize (this s)) in
  let after := stat_callback (StatOk size) s in
  after =
    (if old then rotate max_age (checked size s)
     else if large then rotate max_size (checked size s)
     else checked size s)
  ∧ rotations (since s after) =
      (if old then [max_age] else if large then [max_size] else [])
  ∧ length (rotations (since s after)) = (if old || large then 1 else 0)%nat.
Proof.
  cbn zeta. split; [apply stat_callback_ok |].
  rewrite stat_callback_rotations.
  split; [reflexivity |].
  destruct (num_gt (of_Z (ageInSeconds s)) (maxFileAge (this s))); [reflexivity |].
  destruct (num_gt (of_Z size) (maxFileSize (this s))); reflexivity.
Qed.

(** C3.  Both thresholds are strict.  With [maxFileSize = S] a file of size
    exactly [S] is not rotated for its size, and one of size [S + 1] is
    (unless the age rotation, which is tried first, takes the tick).  With
    [maxFileAge = A] an age of exactly [A] seconds is not rotated for its age
    and an age of [A + 1] is, where the age is the number of whole seconds in
    [now - created]. *)
Theorem threshold_boundaries (s : state) (S A size : Z) :
  maxFileSize (this s) = of_Z S →
  maxFileAge (this s) = of_Z A →
  (1000 * ageInSeconds s ≤ now (env s) - created (this s) < 1000 * ageInSeconds s + 1000)
  ∧ (max_size ∉ rotations (since s (stat_callback (StatOk S) s)))
  ∧ (ageInSeconds s ≤ A →
     rotations (since s (stat_callback (StatOk (S + 1)) s)) = [max_size])
  ∧ (ageInSeconds s = A →
     max_age ∉ rotations (since s (stat_callback (StatOk size) s)))
  ∧ (ageInSeconds s = A + 1 →
     rotations (since s (stat_callback (StatOk size) s)) = [max_age]).
Proof.
  intros HS HA.
  assert (Hdec := stat_callback_rotations s).
  rewrite HS, HA in Hdec. repeat setoid_rewrite num_gt_of_Z in Hdec.
  split; [| split; [| split; [| split]]].
  - unfold ageInSeconds.
    pose proof (Z.div_mod (now (env s) - created (this s)) 1000 ltac:(lia)).
    pose proof (Z.mod_pos_bound (now (env s) - created (this s)) 1000 ltac:(lia)).
    lia.
  - rewrite Hdec, Z.ltb_irrefl.
    destruct (A <? ageInSeconds s); [| apply not_elem_of_nil].
    intros Hin. apply list_elem_of_singleton in Hin. discriminate Hin.
  - intros Hage. rewrite Hdec.
    destruct (Z.ltb_spec A (ageInSeconds s)); [lia |].
    destruct (Z.ltb_spec S (S + 1)); [reflexivity | lia].
  - intros Hage. rewrite Hdec, Hage, Z.ltb_irrefl.
    destruct (S <? size); [| apply not_elem_of_nil].
    intros Hin. apply list_elem_of_singleton in Hin. discriminate Hin.
  - intros Hage. rewrite Hdec.
    destruct (Z.ltb_spec A (ageInSeconds s)); [reflexivity | lia].
Qed.

Lemma threshold_boundaries_witness :
  maxFileSize (this started) = of_Z 1000
  ∧ maxFileAge (this started) = of_Z 60
  ∧ (max_size ∉ rotations (since started (stat_callback (StatOk 1000) started)))
  ∧ rotations (since started (stat_callback (StatOk 1001) started)) = [max_size].
Proof.
  assert (HS : maxFileSize (this started) = of_Z 1000) by (vm_compute; reflexivity).
  assert (HA : maxFileAge (this started) = of_Z 60) by (vm_compute; reflexivity).
  destruct (threshold_boundaries started 1000 60 0 HS HA) as (_ & Hat & Habove & _).
  split; [exact HS | split; [exact HA | split; [exact Hat |]]].
  apply Habove. vm_compute. discriminate.
Defined.

(** ** A failed size query *)

Lemma stat_callback_trace (r : stat_result) (s : state) :
  trace (env (stat_callback r s)) = trace (env s) ++ callback_calls r s.
Proof.
  destruct r as [error | size].
  - reflexivity.
  - rewrite stat_callback_ok. unfold callback_calls.
    destruct (num_gt _ (maxFileAge _));
      [exact (rotate_trace max_age (checked size s)) |].
    destruct (num_gt _ (maxFileSize _));
      [exact (rotate_trace max_size (checked size s)) |].
    symmetry. apply app_nil_r.
Qed.

Lemma agree_fields (a b : state) :
  agree a b →
  this a = this b ∧ now (env a) = now (env b) ∧ calls (env a) = calls (env b)
  ∧ next_fd (env a) = next_fd (env b).
Proof.
  intros [Hthis Henv]. split; [exact Hthis |].
  split; [exact (f_equal now Henv) |].
  split; [exact (f_equal calls Henv) | exact (f_equal next_fd Henv)].
Qed.

Lemma agree_callback (r : stat_result) (a b : state) :
  agree a b →
  this (stat_callback r a) = this (stat_callback r b)
  ∧ since a (stat_callback r a) = since b (stat_callback r b).
Proof.
  intros Hab. destruct (agree_fields a b Hab) as (Hthis & Hnow & Hcalls & Hfd).
  rewrite (since_app _ _ _ (stat_callback_trace r a)),
    (since_app _ _ _ (stat_callback_trace r b)).
  destruct a as [ta wa], b as [tb wb]. cbn in Hthis, Hnow, Hcalls, Hfd. subst tb.
  destruct r as [error | size]; [split; reflexivity |].
  rewrite !stat_callback_ok.
  unfold callback_calls, ageInSeconds.
  cbn [this env]. rewrite Hnow.
  assert (Hrot : ∀ why,
    this (rotate why (checked size {| this := ta; env := wa |})) =
    this (rotate why (checked size {| this := ta; env := wb |}))).
  { intros why. rewrite !rotate_this, !createStream_this.
    unfold next_source, next_destination, next_name, checked. cbn.
    rewrite Hnow, Hcalls, Hfd. reflexivity. }
  assert (Hcalls' : ∀ why,
    announce why (checked size {| this := ta; env := wa |})
      :: swap_calls (checked size {| this := ta; env := wa |})
      ++ handoff_calls (checked size {| this := ta; env := wa |}) =
    announce why (checked size {| this := ta; env := wb |})
      :: swap_calls (checked size {| this := ta; env := wb |})
      ++ handoff_calls (checked size {| this := ta; env := wb |})).
  { intros why. unfold announce, swap_calls, handoff_calls, next_source, next_name,
      checked. cbn. rewrite Hnow, Hcalls. reflexivity. }
  destruct (num_gt (of_Z ((now wb - created ta) / 1000)) (maxFileAge ta));
    [split; [apply Hrot | apply Hcalls'] |].
  destruct (num_gt (of_Z size) (maxFileSize ta));
    [split; [apply Hrot | apply Hcalls'] |].
  split; reflexivity.
Qed.

Lemma set_thrown_same (l : list exception) (w : world) :
  l = thrown w → set_thrown l w = w.
Proof. intros ->. destruct w. reflexivity. Qed.

Lemma emit_heard (c : channel) (p : payload) (s : state) :
  unheard c p (env s) = [] → env (emit c p s) = record (Emit c p) (env s).
Proof.
  intros H. unfold emit. cbn. rewrite H, app_nil_r.
  apply set_thrown_same. reflexivity.
Qed.

Lemma unheard_error (p : payload) (w : world) :
  error_listeners w ≠ 0%nat → unheard Error p w = [].
Proof.
  intros H. unfold unheard. destruct (error_listeners w); [contradiction | reflexivity].
Qed.

(** C7 (as amended).  When the size query of a check fails while a listener
    for [error] is attached, the callback emits exactly one error event,
    which carries the failure and the current source path, makes no other
    call and throws nothing: nothing is rotated, uploaded or removed.  The
    fields of the engine are unchanged and the world changes only by the
    answered request and the logged event.  The scheduled job stays
    registered, the next check queries the same path again, and whatever the
    next query answers, the engine reacts exactly as it would have without
    the failure. *)
Theorem stat_failure_reported
    (s : state) (failure : option string) (path : string) (rest : list string)
    (error : string) :
  stats (env s) = path :: rest →
  stat_of failure path (env s) = StatFailed error →
  error_listeners (env s) ≠ 0%nat →
  let report := Emit Error {| message := "fs.stat failed";
                              p_source := Some (source (this s));
                              p_destination := None; p_reason := None;
                              p_error := Some error; p_code := None |} in
  let s' := step (StatDone failure) s in
  since s s' = [report]
  ∧ emitted Error (since s s') = [{| message := "fs.stat failed";
                                     p_source := Some (source (this s));
                                     p_destination := None; p_reason := None;
                                     p_error := Some error; p_code := None |}]
  ∧ rotations (since s s') = []
  ∧ this s' = this s
  ∧ env s' = record report (set_stats rest (env s))
  ∧ thrown (env s') = thrown (env s)
  ∧ jobs (env s') = jobs (env s)
  ∧ since s' (checkAndRotate s') = [Stat (source (this s))]
  ∧ ∀ r : stat_result,
      this (stat_callback r s') = this (stat_callback r s)
      ∧ since s' (stat_callback r s') = since s (stat_callback r s).
Proof.
  intros Hstats Hfail Hears. cbn zeta. unfold step. rewrite Hstats, Hfail.
  set (s' := stat_callback _ _).
  assert (Hsince : since s s' = [Emit Error
            {| message := "fs.stat failed"; p_source := Some (source (this s));
               p_destination := None; p_reason := None;
               p_error := Some error; p_code := None |}])
    by (apply since_app; reflexivity).
  assert (Henv : env s' = record (Emit Error
            {| message := "fs.stat failed"; p_source := Some (source (this s));
               p_destination := None; p_reason := None;
               p_error := Some error; p_code := None |}) (set_stats rest (env s))).
  { unfold s', stat_callback.
    rewrite (emit_heard Error _ (on_env (set_stats rest) s)); [reflexivity |].
    apply unheard_error. exact Hears. }
  rewrite Hsince.
  split; [reflexivity |]. split; [reflexivity |]. split; [reflexivity |].
  split; [reflexivity |]. split; [exact Henv |].
  split; [rewrite Henv; reflexivity |]. split; [rewrite Henv; reflexivity |].
  split; [apply since_app; reflexivity |].
  intros r. apply agree_callback. split; [reflexivity |]. rewrite Henv. reflexivity.
Qed.

Lemma stat_failure_reported_witness :
  rotations (since file_removed_heard (step (StatDone None) file_removed_heard)) = []
  ∧ this (step (StatDone None) file_removed_heard) = this file_removed_heard
  ∧ thrown (env (step (StatDone None) file_removed_heard)) = [].
Proof.
  destruct (stat_failure_reported file_removed_heard None
              "logs/2014-09-08T13:02:17+00:00" [] "ENOENT"
              ltac:(vm_compute; reflexivity) ltac:(vm_compute; reflexivity)
              ltac:(vm_compute; discriminate))
    as (_ & _ & Hrot & Hthis & _ & Hthrown & _).
  split; [exact Hrot |]. split; [exact Hthis |].
  rewrite Hthrown. vm_compute. reflexivity.
Defined.

(** C7 as stated fails: the class attaches no listener for [error], and on
    an engine whose owner attached none either, the error event of the
    failed query is thrown out of the callback of [fs.stat]. *)
Lemma stat_failure_unheard :
  error_listeners (env file_removed) = 0%nat
  ∧ thrown (env (step (StatDone None) file_removed)) =
      [UnhandledError {| message := "fs.stat failed";
                         p_source := Some "logs/2014-09-08T13:02:17+00:00";
                         p_destination := None; p_reason := None;
                         p_error := Some "ENOENT"; p_code := None |}].
Proof. vm_compute. split; reflexivity. Qed.

(** ** The end of an upload *)







(** ** Validation of the options *)

Lemma bad_localPrefix_spec (opts : options) :
  bad_localPrefix opts = false ↔ is_string (opt_localPrefix opts).
Proof.
  unfold bad_localPrefix, is_string.
  destruct (opt_localPrefix opts); cbn; split; try discriminate; eauto;
    intros [? [=]].
Qed.

Lemma num_gt_zero (n : number) :
  num_gt n (of_Z 0) = true ↔ n = PosInf ∨ ∃ q, n = Fin q ∧ (0 < q)%Q.
Proof.
  destruct n as [| | | q]; unfold num_gt, of_Z.
  - split; [discriminate | intros [[=] | (? & [=] & _)]].
  - split; [now left | reflexivity].
  - split; [discriminate | intros [[=] | (? & [=] & _)]].
  - rewrite negb_true_iff. split.
    + intros H. right. exists q. split; [reflexivity |].
      apply Qnot_le_lt. intros Hle. apply Qle_bool_iff in Hle.
      change (inject_Z 0) with 0%Q in H. congruence.
    + intros [[=] | (q' & [= ->] & Hlt)].
      apply not_true_is_false. intros Hle. apply Qle_bool_iff in Hle.
      change (inject_Z 0) with 0%Q in Hle. apply Qle_not_lt in Hle. contradiction.
Qed.

Lemma bad_threshold_spec (v : value) :
  bad_threshold v = false ↔ is_positive_number v.
Proof.
  unfold bad_threshold, is_positive_number.
  destruct v as [| | b | n | s | f |]; cbn;
    try (split; [discriminate | intros [[=] | (? & [=] & _)]]).
  rewrite negb_false_iff, num_gt_zero. split.
  - intros [-> | (q & -> & Hq)]; [now left | right; eauto].
  - intros [[= ->] | (q & [= ->] & Hq)]; [now left | right; eauto].
Qed.

Lemma indexOf_absent (sub s : string) :
  ¬ occurs sub s → indexOf s sub = -1.
Proof.
  intros Hno. unfold indexOf.
  destruct (String.index 0 sub s) as [m |] eqn:Hindex; [| reflexivity].
  exfalso. apply Hno. exists m. exact (String.index_correct1 0 m sub s Hindex).
Qed.

Lemma indexOf_prefix (sub s : string) :
  sub ≠ EmptyString → String.prefix sub s = true → indexOf s sub ≠ -1.
Proof.
  intros Hsub Hprefix. unfold indexOf.
  destruct (String.index 0 sub s) as [m |] eqn:Hindex; [lia |].
  exfalso. apply (String.index_correct3 0 0 sub s Hindex Hsub (le_n 0)).
  apply String.prefix_correct. exact Hprefix.
Qed.

Lemma bad_createFileName_spec (opts : options) :
  bad_createFileName opts = false ↔ optional_function (opt_createFileName opts).
Proof.
  unfold bad_createFileName, optional_function.
  destruct (opt_createFileName opts); cbn; split; try discriminate; eauto;
    intros [[=] | [? [=]]].
Qed.

(** The constructor, one test of the validation block at a time. *)
Lemma constructor_throws (opts : options) (w : world) :
  bad_localPrefix opts
  || bad_threshold (opt_maxFileSize opts)
  || bad_threshold (opt_maxFileAge opts)
  || bad_s3Prefix opts
  || bad_createFileName opts = true →
  ∃ message, constructor opts w = (Throw message, w).
Proof.
  unfold constructor, bad_localPrefix, bad_threshold, bad_s3Prefix, bad_createFileName,
    mbind, M_bind, bind, when, throw.
  destruct (negb (jstype_eqb (typeof (opt_localPrefix opts)) TString)); [eauto |].
  destruct (negb (jstype_eqb (typeof (opt_maxFileSize opts)) TNumber)
            || negb (gt_zero (opt_maxFileSize opts))); [eauto |].
  destruct (negb (jstype_eqb (typeof (opt_maxFileAge opts)) TNumber)
            || negb (gt_zero (opt_maxFileAge opts))); [eauto |].
  destruct (negb (jstype_eqb (typeof (opt_s3Prefix opts)) TString)
            || (indexOf (as_string (opt_s3Prefix opts)) "s3://" =? -1)); [eauto |].
  destruct (negb (jstype_eqb (typeof (opt_createFileName opts)) TUndefined)
            && negb (jstype_eqb (typeof (opt_createFileName opts)) TFunction)); [eauto |].
  discriminate.
Qed.

Lemma constructor_returns (opts : options) (w : world) :
  bad_localPrefix opts
  || bad_threshold (opt_maxFileSize opts)
  || bad_threshold (opt_maxFileAge opts)
  || bad_s3Prefix opts
  || bad_createFileName opts = false →
  constructor opts w = (Return (this (constructed opts w)), env (constructed opts w)).
Proof.
  unfold constructor, bad_localPrefix, bad_threshold, bad_s3Prefix, bad_createFileName,
    mbind, M_bind, bind, when, throw.
  destruct (negb (jstype_eqb (typeof (opt_localPrefix opts)) TString)); [discriminate |].
  destruct (negb (jstype_eqb (typeof (opt_maxFileSize opts)) TNumber)
            || negb (gt_zero (opt_maxFileSize opts))); [discriminate |].
  destruct (negb (jstype_eqb (typeof (opt_maxFileAge opts)) TNumber)
            || negb (gt_zero (opt_maxFileAge opts))); [discriminate |].
  destruct (negb (jstype_eqb (typeof (opt_s3Prefix opts)) TString)
            || (indexOf (as_string (opt_s3Prefix opts)) "s3://" =? -1)); [discriminate |].
  destruct (negb (jstype_eqb (typeof (opt_createFileName opts)) TUndefined)
            && negb (jstype_eqb (typeof (opt_createFileName opts)) TFunction)); [discriminate |].
  intros _. reflexivity.
Qed.

Lemma state_eta (s : state) : {| this := this s; env := env s |} = s.
Proof. destruct s. reflexivity. Qed.

Lemma new_constructed (opts : options) (w : world) (s : state) :
  new opts w = Some s → s = constructed opts w.
Proof.
  unfold new.
  destruct (bad_localPrefix opts || bad_threshold (opt_maxFileSize opts)
            || bad_threshold (opt_maxFileAge opts) || bad_s3Prefix opts
            || bad_createFileName opts) eqn:Hbad.
  - destruct (constructor_throws opts w Hbad) as [message ->]. discriminate.
  - rewrite (constructor_returns opts w Hbad). intros H.
    assert (E : Some {| this := this (constructed opts w);
                        env := env (constructed opts w) |} = Some s) by exact H.
    rewrite state_eta in E. congruence.
Qed.

Lemma constructed_trace (opts : options) (w : world) :
  trace (env (constructed opts w)) =
    trace w ++ [MkdirpSync (as_string (opt_localPrefix opts));
                CreateWriteStream (source (this (constructed opts w))) "a";
                SetImmediate; ScheduleJob "* * * * *"].
Proof. unfold constructed. cbn. rewrite <- !app_assoc. reflexivity. Qed.

Lemma constructor_empty (opts : options) (w : world) (s : state) :
  new opts w = Some s → empty (this s) = None.
Proof. intros H. rewrite (new_constructed opts w s H). reflexivity. Qed.

Lemma rejected_bad (opts : options) :
  rejected opts →
  bad_localPrefix opts
  || bad_threshold (opt_maxFileSize opts)
  || bad_threshold (opt_maxFileAge opts)
  || bad_s3Prefix opts
  || bad_createFileName opts = true.
Proof.
  intros [H | [H | [H | [H | H]]]].
  - destruct (bad_localPrefix opts) eqn:E; [reflexivity |].
    apply bad_localPrefix_spec in E. contradiction.
  - destruct (bad_threshold (opt_maxFileSize opts)) eqn:E;
      [now rewrite orb_true_r |].
    apply bad_threshold_spec in E. contradiction.
  - destruct (bad_threshold (opt_maxFileAge opts)) eqn:E;
      [now rewrite !orb_true_r |].
    apply bad_threshold_spec in E. contradiction.
  - assert (E : bad_s3Prefix opts = true); [| now rewrite E, !orb_true_r].
    unfold bad_s3Prefix.
    destruct (opt_s3Prefix opts) as [| | b | n | s | f |]; try reflexivity.
    cbn. rewrite (indexOf_absent "s3://" s (H s eq_refl)). reflexivity.
  - destruct (bad_createFileName opts) eqn:E; [now rewrite !orb_true_r |].
    apply bad_createFileName_spec in E. contradiction.
Qed.

Lemma documented_good (opts : options) :
  documented opts →
  bad_localPrefix opts
  || bad_threshold (opt_maxFileSize opts)
  || bad_threshold (opt_maxFileAge opts)
  || bad_s3Prefix opts
  || bad_createFileName opts = false.
Proof.
  intros (Hlocal & Hsize & Hage & (s & Hs3 & Hprefix) & Hname).
  apply bad_localPrefix_spec in Hlocal. apply bad_threshold_spec in Hsize, Hage.
  apply bad_createFileName_spec in Hname.
  rewrite Hlocal, Hsize, Hage, Hname. unfold bad_s3Prefix. rewrite Hs3. cbn.
  rewrite !orb_false_r. apply Z.eqb_neq.
  apply indexOf_prefix; [discriminate | exact Hprefix].
Qed.

(** C5 (as amended).  The constructor throws, leaving the world as it found
    it (no directory made, no file opened, no job scheduled), whenever
    [localPrefix] is not a string, [maxFileSize] or [maxFileAge] is not a
    number greater than 0, [s3Prefix] is not a string in which [s3://]
    occurs, or [createFileName] is neither undefined nor a function.  It does
    not throw on options in the documented form, an empty [localPrefix]
    included: it then makes the directory, opens the first stream and
    schedules the job. *)
Theorem constructor_validation (opts : options) (w : world) :
  (rejected opts → ∃ message, constructor opts w = (Throw message, w))
  ∧ (documented opts →
     ∃ t w', constructor opts w = (Return t, w')
             ∧ localPrefix t = as_string (opt_localPrefix opts)
             ∧ trace w' = trace w ++
                 [MkdirpSync (localPrefix t); CreateWriteStream (source t) "a";
                  SetImmediate; ScheduleJob "* * * * *"]).
Proof.
  split.
  - intros H. apply constructor_throws, rejected_bad, H.
  - intros H. exists (this (constructed opts w)), (env (constructed opts w)).
    split; [apply constructor_returns, documented_good, H |].
    split; [reflexivity | apply constructed_trace].
Qed.

Lemma constructor_validation_witness :
  ∃ message, constructor zero_size boot = (Throw message, boot).
Proof.
  apply (proj1 (constructor_validation zero_size boot)).
  right. left. intros [H | (q & H & Hq)]; [discriminate H |].
  injection H as <-. revert Hq. apply Qlt_irrefl.
Defined.

(** C5 as stated fails: [localPrefix] is the empty string, not a non-empty
    string, and the constructor returns an engine writing to the root
    directory. *)
Lemma empty_localPrefix_accepted :
  opt_localPrefix no_directory = VString ""
  ∧ (λ s, source (this s)) <$> new no_directory boot = Some "/2014-09-08T13:02:17+00:00"
  ∧ (λ s, trace (env s)) <$> new no_directory boot =
      Some [MkdirpSync ""; CreateWriteStream "/2014-09-08T13:02:17+00:00" "a";
            SetImmediate; ScheduleJob "* * * * *"].
Proof. split; [reflexivity |]. split; vm_compute; reflexivity. Qed.

(** ** The flag [this.empty] *)

Lemma createStream_empty (s : state) :
  empty (this (createStream s)) = empty (this s).
Proof. rewrite createStream_this. reflexivity. Qed.

Lemma rotate_empty (why : reason) (s : state) :
  empty (this (rotate why s)) = empty (this s).
Proof. rewrite rotate_this. apply createStream_empty. Qed.

Lemma ticks_this (l : list string) (s : state) :
  this (List.fold_left (λ s' _, checkAndRotate s') l s) = this s.
Proof.
  revert s. induction l as [| spec l IH]; intros s; [reflexivity |].
  cbn. rewrite IH. reflexivity.
Qed.

Lemma step_empty (a : action) (s : state) :
  empty (this (step a s)) = empty_after a s.
Proof.
  destruct a as [data | | | failure | | i data | i data | i code | ms | path | ear | ear];
    unfold empty_after, step.
  - unfold write. destruct (stream (this s)); reflexivity.
  - apply rotate_empty.
  - rewrite ticks_this. reflexivity.
  - destruct (stats (env s)) as [| path rest]; [reflexivity |].
    destruct (stat_of failure path (env s)) as [error | size]; [reflexivity |].
    rewrite stat_callback_ok.
    destruct (num_gt _ (maxFileAge _)); [apply rotate_empty |].
    destruct (num_gt _ (maxFileSize _)); [apply rotate_empty | reflexivity].
  - destruct (immediates (env s)); reflexivity.
  - destruct (children (env s) !! i); reflexivity.
  - destruct (children (env s) !! i); reflexivity.
  - destruct (children (env s) !! i) as [c |]; [| reflexivity].
    unfold close_callback. destruct (code_nonzero code); reflexivity.
  - reflexivity.
  - reflexivity.
  - destruct ear; reflexivity.
  - destruct ear; reflexivity.
Qed.

Lemma unchecked_empty (actions : list action) (s : state) :
  empty (this s) = None →
  forallb (λ a, negb (is_stat_done a)) actions = true →
  empty (this (run actions s)) = None.
Proof.
  revert s. induction actions as [| a actions IH]; intros s Hs Hall; [exact Hs |].
  cbn in Hall. apply andb_true_iff in Hall as [Ha Hall].
  cbn. apply IH; [| exact Hall].
  rewrite step_empty. destruct a; try exact Hs. discriminate Ha.
Qed.

Lemma rotate_since (why : reason) (s : state) :
  since s (rotate why s) = announce why s :: swap_calls s ++ handoff_calls s.
Proof. apply since_app, rotate_trace. Qed.

Lemma uploads_rotate (why : reason) (s : state) :
  uploads (since s (rotate why s)) =
    if not_empty (empty (this s)) then [(source (this s), destination (this s))] else [].
Proof.
  rewrite rotate_since. open_state s; destruct emp as [[|] |]; reflexivity.
Qed.

Lemma unlinked_rotate (why : reason) (s : state) :
  unlinked (since s (rotate why s)) =
    if not_empty (empty (this s)) then [] else [source (this s)].
Proof.
  rewrite rotate_since. open_state s; destruct emp as [[|] |]; reflexivity.
Qed.

(** C10.  [rotate] decides between upload and removal on the flag
    [this.empty] alone: the size the superseded file has when it is rotated
    plays no part.  The flag is written by a size query that succeeded, and
    by nothing else; a new engine has it unset.  So a [flush] made before
    any size query has completed dispatches an upload, whatever the size of
    the superseded file, zero included. *)
Theorem empty_flag_is_last_check :
  (∀ (why : reason) (s : state) (size : Z),
      since (with_size size s) (rotate why (with_size size s)) = since s (rotate why s)
      ∧ uploads (since s (rotate why s)) =
          if not_empty (empty (this s))
          then [(source (this s), destination (this s))] else [])
  ∧ (∀ (a : action) (s : state), empty (this (step a s)) = empty_after a s)
  ∧ (∀ (opts : options) (w : world) (s : state) (actions : list action) (size : Z),
      new opts w = Some s →
      forallb (λ a, negb (is_stat_done a)) actions = true →
      let s' := with_size size (run actions s) in
      uploads (since s' (flush s')) = [(source (this s'), destination (this s'))]
      ∧ unlinked (since s' (flush s')) = []).
Proof.
  split; [| split].
  - intros why s size. split; [| apply uploads_rotate].
    rewrite !rotate_since. reflexivity.
  - apply step_empty.
  - intros opts w s actions size Hnew Hall. cbn zeta.
    assert (Hflag : empty (this (with_size size (run actions s))) = None)
      by (apply (unchecked_empty actions s (constructor_empty opts w s Hnew) Hall)).
    unfold flush. rewrite uploads_rotate, unlinked_rotate, Hflag. split; reflexivity.
Qed.

Lemma empty_flag_is_last_check_witness :
  fs (env (with_size 0 idle)) !! source (this (with_size 0 idle)) = Some 0
  ∧ uploads (since (with_size 0 idle) (flush (with_size 0 idle))) =
      [("logs/2014-09-08T13:02:17+00:00", "s3://bucket/logs/2014-09-08T13:02:17+00:00")].
Proof.
  split; [vm_compute; reflexivity |].
  destruct empty_flag_is_last_check as (_ & _ & Hflush).
  pose proof (proj1 (Hflush sample boot started [Advance 5000] 0
                       started_new ltac:(reflexivity))) as H.
  vm_compute in H. vm_compute. exact H.
Defined.

(** ** Empty and non-empty files at rotation *)


(** C1, on the failing input.  A new engine, left idle for five seconds and
    then flushed: the superseded file has size 0 when it is rotated, and yet
    it is handed to [aws s3 cp]; no empty-file event is emitted and the file
    is not removed. *)
Theorem flush_uploads_empty_file :
  current_size idle = Some 0
  ∧ since idle (flush idle) =
      [Emit Info {| message := "Rotating stream";
                    p_source := Some "logs/2014-09-08T13:02:17+00:00";
                    p_destination := Some "s3://bucket/logs/2014-09-08T13:02:17+00:00";
                    p_reason := Some (ReasonObject "External flush request");
                    p_error := None; p_code := None |};
       StreamEnd {| h_id := 3; h_path := "logs/2014-09-08T13:02:17+00:00" |};
       CreateWriteStream "logs/2014-09-08T13:02:22+00:00" "a";
       SetImmediate;
       Spawn "aws" ["s3"; "cp"; "logs/2014-09-08T13:02:17+00:00";
                    "s3://bucket/logs/2014-09-08T13:02:17+00:00"]]
  ∧ fs (env (flush idle)) !! "logs/2014-09-08T13:02:17+00:00" = Some 0.
Proof. vm_compute. repeat split; reflexivity. Qed.

(** C2, on the failing input.  The size check found the file empty; five
    bytes were written since; [flush] then rotates a file of size 5 and, on
    the stale flag, dispatches no upload and removes the file. *)
Theorem flush_drops_written_file :
  current_size written = Some 5
  ∧ empty (this written) = Some true
  ∧ since written (flush written) =
      [Emit Info {| message := "Rotating stream";
                    p_source := Some "logs/2014-09-08T13:02:17+00:00";
                    p_destination := Some "s3://bucket/logs/2014-09-08T13:02:17+00:00";
                    p_reason := Some (ReasonObject "External flush request");
                    p_error := None; p_code := None |};
       StreamEnd {| h_id := 3; h_path := "logs/2014-09-08T13:02:17+00:00" |};
       CreateWriteStream "logs/2014-09-08T13:02:22+00:00" "a";
       SetImmediate;
       Emit Info {| message := "Rotating empty local stream without S3 sync";
                    p_source := Some "logs/2014-09-08T13:02:17+00:00";
                    p_destination := None;
                    p_reason := None; p_error := None; p_code := None |};
       Unlink "logs/2014-09-08T13:02:17+00:00"]
  ∧ uploads (since written (flush written)) = []
  ∧ fs (env (flush written)) !! "logs/2014-09-08T13:02:17+00:00" = None.
Proof. vm_compute. repeat split; reflexivity. Qed.

(** ** The active file *)

Lemma active_ext (a b : state) :
  this a = this b →
  opened (env a) = opened (env b) →
  next_fd (env a) = next_fd (env b) →
  active a → active b.
Proof.
  intros Hthis Hopened Hfd (h & name & H). exists h, name.
  rewrite <- Hthis, <- Hopened, <- Hfd. exact H.
Qed.

Lemma createStream_opened (s : state) :
  opened (env (createStream s)) =
    match stream (this s) with
    | Some old => List.filter (λ h', negb (same_handle old h')) (opened (env s))
    | None => opened (env s)
    end ++ [{| h_id := next_fd (env s); h_path := next_source s |}].
Proof. open_state s; reflexivity. Qed.

Lemma createStream_next_fd (s : state) :
  next_fd (env (createStream s)) = S (next_fd (env s)).
Proof. open_state s; reflexivity. Qed.

Lemma createStream_first (s : state) :
  stream (this s) = None → opened (env s) = [] → active (createStream s).
Proof.
  intros Hstream Hopened.
  exists {| h_id := next_fd (env s); h_path := next_source s |}, (next_name s).
  rewrite createStream_opened, createStream_next_fd, createStream_this, Hstream, Hopened.
  cbn. repeat split; lia.
Qed.

Lemma createStream_active (s : state) : active s → active (createStream s).
Proof.
  intros (h & name & Hopened & Hstream & _).
  exists {| h_id := next_fd (env s); h_path := next_source s |}, (next_name s).
  rewrite createStream_opened, createStream_next_fd, createStream_this, Hstream, Hopened.
  cbn. unfold same_handle. rewrite Nat.eqb_refl. cbn. repeat split; lia.
Qed.

Lemma rotate_opened (why : reason) (s : state) :
  opened (env (rotate why s)) = opened (env (createStream s)).
Proof. open_state s; destruct emp as [[|] |]; reflexivity. Qed.

Lemma rotate_next_fd (why : reason) (s : state) :
  next_fd (env (rotate why s)) = next_fd (env (createStream s)).
Proof. open_state s; destruct emp as [[|] |]; reflexivity. Qed.

Lemma rotate_active (why : reason) (s : state) : active s → active (rotate why s).
Proof.
  intros H. apply (active_ext (createStream s)).
  - symmetry. apply rotate_this.
  - symmetry. apply rotate_opened.
  - symmetry. apply rotate_next_fd.
  - apply createStream_active, H.
Qed.

Lemma stat_callback_active (r : stat_result) (s : state) :
  active s → active (stat_callback r s).
Proof.
  intros H. destruct r as [error | size].
  - exact (active_ext s _ eq_refl eq_refl eq_refl H).
  - rewrite stat_callback_ok.
    assert (Hchecked : active (checked size s)).
    { destruct H as (h & name & H). exists h, name. exact H. }
    destruct (num_gt _ (maxFileAge _)); [now apply rotate_active |].
    destruct (num_gt _ (maxFileSize _)); [now apply rotate_active | exact Hchecked].
Qed.

Lemma ticks_env (l : list string) (s : state) :
  opened (env (List.fold_left (λ s' _, checkAndRotate s') l s)) = opened (env s)
  ∧ next_fd (env (List.fold_left (λ s' _, checkAndRotate s') l s)) = next_fd (env s).
Proof.
  revert s. induction l as [| spec l IH]; intros s; [split; reflexivity |].
  cbn. destruct (IH (checkAndRotate s)) as [-> ->]. split; reflexivity.
Qed.

Lemma step_active (a : action) (s : state) : active s → active (step a s).
Proof.
  intros H.
  destruct a as [data | | | failure | | i data | i data | i code | ms | path | ear | ear];
    unfold step.
  - unfold write. destruct (stream (this s));
      [exact (active_ext s _ eq_refl eq_refl eq_refl H) | exact H].
  - apply rotate_active, H.
  - apply (active_ext s); [symmetry; apply ticks_this | | | exact H].
    + symmetry. apply ticks_env.
    + symmetry. apply ticks_env.
  - destruct (stats (env s)) as [| path rest]; [exact H |].
    apply stat_callback_active. exact (active_ext s _ eq_refl eq_refl eq_refl H).
  - destruct (immediates (env s)); [exact H |].
    exact (active_ext s _ eq_refl eq_refl eq_refl H).
  - destruct (children (env s) !! i); [| exact H].
    exact (active_ext s _ eq_refl eq_refl eq_refl H).
  - destruct (children (env s) !! i); [| exact H].
    exact (active_ext s _ eq_refl eq_refl eq_refl H).
  - destruct (children (env s) !! i) as [c |]; [| exact H].
    unfold close_callback. destruct (code_nonzero code);
      exact (active_ext s _ eq_refl eq_refl eq_refl H).
  - exact (active_ext s _ eq_refl eq_refl eq_refl H).
  - exact (active_ext s _ eq_refl eq_refl eq_refl H).
  - destruct ear; exact (active_ext s _ eq_refl eq_refl eq_refl H).
  - destruct ear; exact (active_ext s _ eq_refl eq_refl eq_refl H).
Qed.

Lemma run_active (actions : list action) (s : state) :
  active s → active (run actions s).
Proof.
  revert s. induction actions as [| a actions IH]; intros s H; [exact H |].
  cbn. apply IH, step_active, H.
Qed.

Lemma new_active (opts : options) (w : world) (s : state) :
  new opts w = Some s → opened w = [] → active s.
Proof.
  intros Hnew Hopened. rewrite (new_constructed opts w s Hnew). unfold constructed.
  set (s1 := createStream _).
  apply (active_ext s1); [reflexivity | reflexivity | reflexivity |].
  apply createStream_first; [reflexivity | exact Hopened].
Qed.

Lemma createStream_config (s : state) :
  config (this (createStream s)) = config (this s).
Proof. rewrite createStream_this. reflexivity. Qed.

Lemma rotate_config (why : reason) (s : state) :
  config (this (rotate why s)) = config (this s).
Proof. rewrite rotate_this. apply createStream_config. Qed.

Lemma step_config (a : action) (s : state) :
  config (this (step a s)) = config (this s).
Proof.
  destruct a as [data | | | failure | | i data | i data | i code | ms | path | ear | ear];
    unfold step.
  - unfold write. destruct (stream (this s)); reflexivity.
  - apply rotate_config.
  - rewrite ticks_this. reflexivity.
  - destruct (stats (env s)) as [| path rest]; [reflexivity |].
    destruct (stat_of failure path (env s)) as [error | size]; [reflexivity |].
    rewrite stat_callback_ok.
    destruct (num_gt _ (maxFileAge _)); [rewrite rotate_config; reflexivity |].
    destruct (num_gt _ (maxFileSize _)); [rewrite rotate_config |]; reflexivity.
  - destruct (immediates (env s)); reflexivity.
  - destruct (children (env s) !! i); reflexivity.
  - destruct (children (env s) !! i); reflexivity.
  - destruct (children (env s) !! i) as [c |]; [| reflexivity].
    unfold close_callback. destruct (code_nonzero code); reflexivity.
  - reflexivity.
  - reflexivity.
  - destruct ear; reflexivity.
  - destruct ear; reflexivity.
Qed.

Lemma run_config (actions : list action) (s : state) :
  config (this (run actions s)) = config (this s).
Proof.
  revert s. induction actions as [| a actions IH]; intros s; [reflexivity |].
  cbn. rewrite IH. apply step_config.
Qed.

Lemma append_inj (a b c : string) : a +:+ b = a +:+ c → b = c.
Proof.
  induction a as [| x a IH]; cbn; [trivial |]. intros [= H]. exact (IH H).
Qed.

(** The default name has a resolution of one second. *)
Lemma moment_format_second (offset t t' : Z) :
  t / 1000 = t' / 1000 → moment_format offset t = moment_format offset t'.
Proof. intros H. unfold moment_format. rewrite H. reflexivity. Qed.

Lemma default_name (opts : options) (w : world) (s0 : state) (actions : list action) :
  new opts w = Some s0 →
  opt_createFileName opts = VUndefined →
  next_name (run actions s0) = moment_format (utc_offset w) (now (env (run actions s0))).
Proof.
  intros Hnew Hdefault. unfold next_name.
  assert (Hgen : createFileName (this (run actions s0)) =
                 λ _ t, moment_format (utc_offset w) t).
  { transitivity (createFileName (this s0)).
    - exact (f_equal (λ c, fst (fst (fst (fst c)))) (run_config actions s0)).
    - rewrite (new_constructed opts w s0 Hnew). unfold constructed.
      transitivity (createFileName (assign opts (utc_offset w))).
      + exact (f_equal (λ c, fst (fst (fst (fst c))))
                 (createStream_config
                    {| this := assign opts (utc_offset w);
                       env := mkdirp_sync (localPrefix (assign opts (utc_offset w))) w |})).
      + unfold assign. cbn [createFileName]. rewrite Hdefault. reflexivity. }
  rewrite Hgen. reflexivity.
Qed.

Lemma superseded_rotate (why : reason) (s : state) :
  superseded (announce why s :: swap_calls s ++ handoff_calls s) =
    [(Some (source (this s)), Some (destination (this s)))].
Proof. open_state s; destruct emp as [[|] |]; reflexivity. Qed.

(** C8 (as amended).  In every state an engine reaches exactly one write
    stream is open, the one of the current file.  A rotation ends it and
    opens a new stream, on the path [localPrefix/name] where [name] is what
    the generator returns at that moment; the new path differs from the
    previous one exactly when that name differs from the previous name.  The
    default generator returns the local time to the second, alike for two
    instants of the same second. *)
Theorem rotation_swaps_active_file
    (opts : options) (w : world) (s0 : state) (actions : list action) (why : reason) :
  new opts w = Some s0 →
  opened w = [] →
  let s := run actions s0 in
  let s' := rotate why s in
  active s
  ∧ active s'
  ∧ stream (this s') ≠ stream (this s)
  ∧ source (this s') = localPrefix (this s) +:+ "/" +:+ next_name s
  ∧ (∃ name, source (this s) = localPrefix (this s) +:+ "/" +:+ name
             ∧ (source (this s') = source (this s) ↔ next_name s = name))
  ∧ (opt_createFileName opts = VUndefined →
     next_name s = moment_format (utc_offset w) (now (env s))
     ∧ ∀ t t', t / 1000 = t' / 1000 →
               moment_format (utc_offset w) t = moment_format (utc_offset w) t').
Proof.
  intros Hnew Hopened. cbn zeta.
  pose proof (run_active actions s0 (new_active opts w s0 Hnew Hopened)) as Hactive.
  set (s := run actions s0) in *.
  assert (Hsource : source (this (rotate why s)) = localPrefix (this s) +:+ "/" +:+ next_name s)
    by (rewrite rotate_this, createStream_this; reflexivity).
  split; [exact Hactive |]. split; [apply rotate_active, Hactive |].
  split; [| split; [exact Hsource | split]].
  - destruct Hactive as (h & name & _ & Hstream & _ & Hfd & _).
    rewrite rotate_this, createStream_this, Hstream. cbn. intros [= E].
    rewrite <- E in Hfd. cbn in Hfd. lia.
  - destruct Hactive as (h & name & _ & _ & _ & _ & Hname & _).
    exists name. split; [exact Hname |]. rewrite Hsource, Hname. split.
    + intros E. exact (append_inj _ _ _ (append_inj _ _ _ E)).
    + intros ->. reflexivity.
  - intros Hdefault. split; [apply (default_name opts w s0 actions Hnew Hdefault) |].
    intros t t'. apply moment_format_second.
Qed.

Lemma rotation_swaps_active_file_witness :
  active (run [CallWrite "hello"; Advance 61000] started)
  ∧ active (rotate max_age (run [CallWrite "hello"; Advance 61000] started)).
Proof.
  destruct (rotation_swaps_active_file sample boot started
              [CallWrite "hello"; Advance 61000] max_age started_new eq_refl)
    as (H & H' & _).
  split; [exact H | exact H'].
Defined.

(** C8 as stated fails under the default generator: the engine of the running
    example, flushed 400 ms after its construction, opens its new file on the
    path of the previous one. *)
Lemma same_second_same_path :
  opt_createFileName sample = VUndefined
  ∧ source (this (run [Advance 400; CallFlush] started)) = source (this started).
Proof. split; [reflexivity | vm_compute; reflexivity]. Qed.

(** ** Two flushes in a row *)

Lemma rotations_app (l l' : list effect) :
  rotations (l ++ l') = rotations l ++ rotations l'.
Proof. apply flat_map_app. Qed.

Lemma superseded_app (l l' : list effect) :
  superseded (l ++ l') = superseded l ++ superseded l'.
Proof. apply flat_map_app. Qed.

Lemma since_trans (a b c : state) (l l' : list effect) :
  trace (env b) = trace (env a) ++ l →
  trace (env c) = trace (env b) ++ l' →
  since a c = l ++ l'.
Proof.
  intros Hab Hbc. apply since_app. rewrite Hbc, Hab. symmetry. apply app_assoc.
Qed.

(** C9 (as amended).  Two calls of [flush] in a row, whatever the thresholds
    and whatever time passes between them, make two rotations.  Each
    announces the source and destination of the file it supersedes, and the
    file the second supersedes is the one the first created: its paths, and
    the stream that the second rotation ends.  The two pairs differ exactly
    when the name generated at the first flush differs from the name of the
    file it supersedes. *)
Theorem flush_twice
    (opts : options) (w : world) (s0 : state) (actions : list action) (ms : N) :
  new opts w = Some s0 →
  opened w = [] →
  let s := run actions s0 in
  let s1 := step CallFlush s in
  let s2 := step CallFlush (step (Advance ms) s1) in
  rotations (since s s2) = [flush_reason; flush_reason]
  ∧ superseded (since s s2) =
      [(Some (source (this s)), Some (destination (this s)));
       (Some (source (this s1)), Some (destination (this s1)))]
  ∧ source (this s1) = next_source s
  ∧ destination (this s1) = next_destination s
  ∧ (∃ h1, stream (this s1) = Some h1 ∧ StreamEnd h1 ∈ since s1 s2)
  ∧ (∃ name, source (this s) = localPrefix (this s) +:+ "/" +:+ name
             ∧ destination (this s) = s3Prefix (this s) +:+ "/" +:+ name
             ∧ ((source (this s1), destination (this s1)) =
                (source (this s), destination (this s)) ↔ next_name s = name)).
Proof.
  intros Hnew Hopened. cbn zeta.
  pose proof (run_active actions s0 (new_active opts w s0 Hnew Hopened)) as Hactive.
  set (s := run actions s0) in *.
  change (step CallFlush s) with (rotate flush_reason s).
  set (s1 := rotate flush_reason s).
  change (step CallFlush (step (Advance ms) s1))
    with (rotate flush_reason (on_env (set_now (now (env s1) + Z.of_N ms)) s1)).
  set (s1' := on_env (set_now (now (env s1) + Z.of_N ms)) s1).
  pose proof (rotate_trace flush_reason s) as H1. fold s1 in H1.
  pose proof (rotate_trace flush_reason s1') as H2.
  change (trace (env s1')) with (trace (env s1)) in H2.
  assert (Hs1 : this s1 = this (createStream s)) by apply rotate_this.
  rewrite (since_trans s s1 (rotate flush_reason s1') _ _ H1 H2).
  rewrite rotations_app, superseded_app, !rotations_rotate, !superseded_rotate.
  split; [reflexivity |]. split; [reflexivity |].
  split; [rewrite Hs1, createStream_this; reflexivity |].
  split; [rewrite Hs1, createStream_this; reflexivity |].
  split.
  - destruct (rotate_active flush_reason s Hactive) as (h1 & _ & _ & Hstream & _).
    fold s1 in Hstream. exists h1. split; [exact Hstream |].
    rewrite (since_app s1 (rotate flush_reason s1') _ H2).
    unfold swap_calls. change (stream (this s1')) with (stream (this s1)).
    rewrite Hstream. apply list_elem_of_In. right. left. reflexivity.
  - destruct Hactive as (h & name & _ & _ & _ & _ & Hsource & Hdestination).
    exists name. split; [exact Hsource |]. split; [exact Hdestination |].
    rewrite Hs1, createStream_this. cbn [source destination set_stream set_created
      set_destination set_source]. rewrite Hsource, Hdestination.
    unfold next_source, next_destination. split.
    + intros [= E _]. exact (append_inj _ _ _ (append_inj _ _ _ E)).
    + intros ->. reflexivity.
Qed.

Lemma flush_twice_witness :
  rotations (since idle (step CallFlush (step (Advance 20) (step CallFlush idle)))) =
    [flush_reason; flush_reason].
Proof.
  exact (proj1 (flush_twice sample boot started [Advance 5000] 20 started_new eq_refl)).
Defined.

(** C9 as stated fails: an engine flushed twice in the second of its
    construction rotates twice under one and the same pair of source and
    destination, and uploads that pair twice. *)
Lemma flush_twice_same_pair :
  superseded (since started (run [CallFlush; CallFlush] started)) =
    [(Some "logs/2014-09-08T13:02:17+00:00",
      Some "s3://bucket/logs/2014-09-08T13:02:17+00:00");
     (Some "logs/2014-09-08T13:02:17+00:00",
      Some "s3://bucket/logs/2014-09-08T13:02:17+00:00")]
  ∧ uploads (since started (run [CallFlush; CallFlush] started)) =
      [("logs/2014-09-08T13:02:17+00:00", "s3://bucket/logs/2014-09-08T13:02:17+00:00");
       ("logs/2014-09-08T13:02:17+00:00", "s3://bucket/logs/2014-09-08T13:02:17+00:00")].
Proof. vm_compute. split; reflexivity. Qed.

(** ** The calls of the handlers *)

Lemma ticks_trace (l : list string) (s : state) :
  trace (env (List.fold_left (λ s' _, checkAndRotate s') l s)) =
    trace (env s) ++ List.map (λ _, Stat (source (this s))) l.
Proof.
  revert s. induction l as [| spec l IH]; intros s; cbn.
  - symmetry. apply app_nil_r.
  - rewrite IH. cbn. rewrite <- app_assoc. reflexivity.
Qed.

Lemma step_trace (a : action) (s : state) :
  trace (env (step a s)) = trace (env s) ++ step_calls a s.
Proof.
  destruct a as [data | | | failure | | i data | i data | i code | ms | path | ear | ear];
    unfold step, step_calls.
  - unfold write. destruct (stream (this s)); [reflexivity |].
    symmetry. apply app_nil_r.
  - apply rotate_trace.
  - apply ticks_trace.
  - destruct (stats (env s)) as [| path rest]; [symmetry; apply app_nil_r |].
    rewrite stat_callback_trace.
    destruct (stat_of failure path (env s)) as [error | size]; reflexivity.
  - destruct (immediates (env s)); [symmetry; apply app_nil_r | reflexivity].
  - destruct (children (env s) !! i); [reflexivity | symmetry; apply app_nil_r].
  - destruct (children (env s) !! i); [reflexivity | symmetry; apply app_nil_r].
  - destruct (children (env s) !! i) as [c |]; [| symmetry; apply app_nil_r].
    unfold close_callback, close_calls. destruct (code_nonzero code); cbn;
      rewrite <- ?app_assoc; reflexivity.
  - symmetry. apply app_nil_r.
  - symmetry. apply app_nil_r.
  - destruct ear; symmetry; apply app_nil_r.
  - destruct ear; symmetry; apply app_nil_r.
Qed.

Lemma run_trace (actions : list action) (s : state) :
  trace (env (run actions s)) = trace (env s) ++ run_calls actions s.
Proof.
  revert s. induction actions as [| a actions IH]; intros s; cbn.
  - symmetry. apply app_nil_r.
  - change (List.fold_left _ actions (step a s)) with (run actions (step a s)).
    rewrite IH, step_trace, <- app_assoc. reflexivity.
Qed.

Lemma run_since (actions : list action) (s : state) :
  since s (run actions s) = run_calls actions s.
Proof. apply since_app, run_trace. Qed.

(** ** Where the engine reads, writes and uploads *)

Lemma rotate_children (why : reason) (s : state) :
  children (env (rotate why s)) =
    children (env s) ++
      (if not_empty (empty (this s))
       then [{| c_source := source (this s); c_destination := destination (this s) |}]
       else []).
Proof.
  open_state s; destruct emp as [[|] |]; cbn; rewrite ?app_nil_r; reflexivity.
Qed.

Lemma rotate_stats (why : reason) (s : state) :
  stats (env (rotate why s)) = stats (env s).
Proof. open_state s; destruct emp as [[|] |]; reflexivity. Qed.

Lemma active_mirrored (lp sp : string) (s : state) :
  localPrefix (this s) = lp → s3Prefix (this s) = sp → active s →
  mirrored lp sp (source (this s)) (destination (this s))
  ∧ ∃ h, stream (this s) = Some h ∧ local_file lp (h_path h).
Proof.
  intros <- <- (h & name & _ & Hstream & Hpath & _ & Hsource & Hdestination).
  split; [exists name; split; assumption |].
  exists h. split; [exact Hstream |]. exists name. rewrite Hpath. exact Hsource.
Qed.

Lemma rotate_tidy (lp sp : string) (why : reason) (s : state) :
  tidy lp sp s →
  tidy lp sp (rotate why s)
  ∧ Forall (contained lp sp) (announce why s :: swap_calls s ++ handoff_calls s).
Proof.
  intros (Hlp & Hsp & Hactive & Hchildren & Hstats).
  destruct (active_mirrored lp sp s Hlp Hsp Hactive) as (Hmirror & h & Hstream & Hpath).
  assert (Hsource : local_file lp (source (this s)))
    by (destruct Hmirror as (name & -> & _); exists name; reflexivity).
  pose proof (rotate_config why s) as Hconfig. unfold config in Hconfig.
  injection Hconfig as _ Hlp' _ _ Hsp'.
  split; [split; [| split; [| split; [| split]]] |].
  - congruence.
  - congruence.
  - apply rotate_active, Hactive.
  - rewrite rotate_children. apply Forall_app. split; [exact Hchildren |].
    destruct (not_empty (empty (this s))); [| constructor].
    apply Forall_singleton. exact Hmirror.
  - rewrite rotate_stats. exact Hstats.
  - apply Forall_cons. split; [exact I |]. apply Forall_app. split.
    + unfold swap_calls. rewrite Hstream. repeat constructor; [exact Hpath |].
      exists (next_name s). unfold next_source. rewrite Hlp. reflexivity.
    + unfold handoff_calls. destruct (not_empty (empty (this s))).
      * apply Forall_singleton. exists (source (this s)), (destination (this s)).
        split; [reflexivity |]. split; [reflexivity | exact Hmirror].
      * repeat constructor. exact Hsource.
Qed.

Lemma tidy_ext (lp sp : string) (a b : state) :
  config (this a) = config (this b) →
  source (this a) = source (this b) →
  destination (this a) = destination (this b) →
  stream (this a) = stream (this b) →
  opened (env a) = opened (env b) →
  next_fd (env a) = next_fd (env b) →
  children (env a) = children (env b) →
  stats (env a) = stats (env b) →
  tidy lp sp a → tidy lp sp b.
Proof.
  intros Hconfig Hsource Hdestination Hstream Hopened Hfd Hchildren Hstats
    (Hlp & Hsp & (h & name & H) & Hc & Hs).
  unfold config in Hconfig. injection Hconfig as _ Hlp' _ _ Hsp'.
  split; [congruence |]. split; [congruence |]. split.
  - exists h, name. rewrite <- Hsource, <- Hdestination, <- Hstream, <- Hopened,
      <- Hfd, <- Hlp', <- Hsp'. exact H.
  - rewrite <- Hchildren, <- Hstats. split; assumption.
Qed.

Lemma stat_callback_tidy (lp sp : string) (r : stat_result) (s : state) :
  tidy lp sp s →
  tidy lp sp (stat_callback r s) ∧ Forall (contained lp sp) (callback_calls r s).
Proof.
  intros H. destruct r as [error | size].
  - split; [| repeat constructor].
    revert H. apply tidy_ext; reflexivity.
  - assert (Hchecked : tidy lp sp (checked size s))
      by (revert H; apply tidy_ext; reflexivity).
    rewrite stat_callback_ok. unfold callback_calls.
    destruct (num_gt _ (maxFileAge _)); [exact (rotate_tidy lp sp _ _ Hchecked) |].
    destruct (num_gt _ (maxFileSize _)); [exact (rotate_tidy lp sp _ _ Hchecked) |].
    split; [exact Hchecked | constructor].
Qed.

Lemma ticks_stats (l : list string) (s : state) :
  stats (env (List.fold_left (λ s' _, checkAndRotate s') l s)) =
    stats (env s) ++ List.map (λ _, source (this s)) l
  ∧ children (env (List.fold_left (λ s' _, checkAndRotate s') l s)) = children (env s).
Proof.
  revert s. induction l as [| spec l IH]; intros s; cbn.
  - split; [symmetry; apply app_nil_r | reflexivity].
  - destruct (IH (checkAndRotate s)) as [-> ->]. cbn.
    rewrite <- app_assoc. split; reflexivity.
Qed.

Lemma step_tidy (lp sp : string) (a : action) (s : state) :
  tidy lp sp s →
  tidy lp sp (step a s) ∧ Forall (contained lp sp) (step_calls a s).
Proof.
  intros H.
  pose proof H as (Hlp & Hsp & Hactive & Hchildren & Hstats).
  destruct (active_mirrored lp sp s Hlp Hsp Hactive) as (Hmirror & h & Hstream & Hpath).
  assert (Hsource : local_file lp (source (this s)))
    by (destruct Hmirror as (name & -> & _); exists name; reflexivity).
  destruct a as [data | | | failure | | i data | i data | i code | ms | path | ear | ear];
    unfold step, step_calls.
  - unfold write. rewrite Hstream. split; [| repeat constructor; exact Hpath].
    revert H. apply tidy_ext; reflexivity.
  - apply rotate_tidy, H.
  - split.
    + revert H. intros _. split; [| split; [| split; [| split]]].
      * rewrite ticks_this. exact Hlp.
      * rewrite ticks_this. exact Hsp.
      * apply (active_ext s); [symmetry; apply ticks_this | | | exact Hactive];
          symmetry; apply ticks_env.
      * rewrite (proj2 (ticks_stats _ _)). exact Hchildren.
      * rewrite (proj1 (ticks_stats _ _)). apply Forall_app. split; [exact Hstats |].
        apply Forall_forall. intros p Hp. apply list_elem_of_In, in_map_iff in Hp.
        destruct Hp as (_ & <- & _). exact Hsource.
    + apply Forall_forall. intros e He. apply list_elem_of_In, in_map_iff in He.
      destruct He as (_ & <- & _). exact Hsource.
  - destruct (stats (env s)) as [| path rest] eqn:Hqueue; [split; [exact H | constructor] |].
    assert (Hrest : tidy lp sp (on_env (set_stats rest) s)).
    { split; [exact Hlp |]. split; [exact Hsp |]. split.
      - exact (active_ext s _ eq_refl eq_refl eq_refl Hactive).
      - split; [exact Hchildren |]. apply Forall_cons_1 in Hstats. apply Hstats. }
    destruct (stat_callback_tidy lp sp (stat_of failure path (env s)) _ Hrest)
      as [Htidy Hcalls].
    split; [exact Htidy |].
    destruct (stat_of failure path (env s)); exact Hcalls.
  - destruct (immediates (env s)); [split; [exact H | constructor] |].
    split; [| repeat constructor]. revert H. apply tidy_ext; reflexivity.
  - destruct (children (env s) !! i); [| split; [exact H | constructor]].
    split; [| repeat constructor]. revert H. apply tidy_ext; reflexivity.
  - destruct (children (env s) !! i); [| split; [exact H | constructor]].
    split; [| repeat constructor]. revert H. apply tidy_ext; reflexivity.
  - destruct (children (env s) !! i) as [c |] eqn:Hchild; [| split; [exact H | constructor]].
    pose proof (Forall_lookup_1 _ _ _ _ Hchildren Hchild) as (name & Hfrom & Hto).
    assert (Hdeleted : tidy lp sp (on_env (set_children (delete i (children (env s)))) s)).
    { split; [exact Hlp |]. split; [exact Hsp |]. split.
      - exact (active_ext s _ eq_refl eq_refl eq_refl Hactive).
      - split; [apply Forall_delete, Hchildren | exact Hstats]. }
    unfold close_callback, close_calls. destruct (code_nonzero code).
    + split; [| repeat constructor]. revert Hdeleted. apply tidy_ext; reflexivity.
    + split; [revert Hdeleted; apply tidy_ext; reflexivity |].
      repeat constructor. exists name. exact Hfrom.
  - split; [| constructor]. revert H. apply tidy_ext; reflexivity.
  - split; [| constructor]. revert H. apply tidy_ext; reflexivity.
  - split; [| constructor]. revert H. destruct ear; apply tidy_ext; reflexivity.
  - split; [| constructor]. revert H. destruct ear; apply tidy_ext; reflexivity.
Qed.

Lemma run_tidy (lp sp : string) (actions : list action) (s : state) :
  tidy lp sp s →
  tidy lp sp (run actions s) ∧ Forall (contained lp sp) (run_calls actions s).
Proof.
  revert s. induction actions as [| a actions IH]; intros s H.
  - split; [exact H | constructor].
  - destruct (step_tidy lp sp a s H) as [Hstep Hcalls].
    destruct (IH (step a s) Hstep) as [Hrun Hrest].
    split; [exact Hrun |]. cbn. apply Forall_app. split; assumption.
Qed.

Lemma new_good (opts : options) (w : world) (s : state) :
  new opts w = Some s →
  bad_localPrefix opts = false
  ∧ bad_threshold (opt_maxFileSize opts) = false
  ∧ bad_threshold (opt_maxFileAge opts) = false
  ∧ bad_s3Prefix opts = false
  ∧ bad_createFileName opts = false.
Proof.
  unfold new.
  destruct (bad_localPrefix opts || bad_threshold (opt_maxFileSize opts)
            || bad_threshold (opt_maxFileAge opts) || bad_s3Prefix opts
            || bad_createFileName opts) eqn:Hbad.
  - destruct (constructor_throws opts w Hbad) as [message ->]. discriminate.
  - intros _. repeat (apply orb_false_elim in Hbad as [Hbad ?]). auto.
Qed.

Lemma constructed_tidy (opts : options) (w : world) :
  quiet w →
  tidy (as_string (opt_localPrefix opts)) (as_string (opt_s3Prefix opts))
    (constructed opts w).
Proof.
  intros (Hopened & Hchildren & Hstats & _).
  unfold constructed. set (s1 := createStream _).
  assert (H1 : active s1) by (apply createStream_first; [reflexivity | exact Hopened]).
  split; [reflexivity |]. split; [reflexivity |]. split.
  - apply (active_ext s1); [reflexivity | reflexivity | reflexivity | exact H1].
  - assert (Hc : children (env (on_env (schedule "* * * * *") s1)) = children w)
      by reflexivity.
    assert (Hs : stats (env (on_env (schedule "* * * * *") s1)) = stats w)
      by reflexivity.
    rewrite Hc, Hs, Hchildren, Hstats. split; constructor.
Qed.

Lemma new_tidy (opts : options) (w : world) (s : state) :
  new opts w = Some s → quiet w →
  tidy (as_string (opt_localPrefix opts)) (as_string (opt_s3Prefix opts)) s.
Proof.
  intros Hnew Hquiet. rewrite (new_constructed opts w s Hnew).
  apply constructed_tidy, Hquiet.
Qed.

Lemma since_boot_run (opts : options) (w : world) (s0 : state) (actions : list action) :
  new opts w = Some s0 →
  since_boot w (run actions s0) =
    [MkdirpSync (as_string (opt_localPrefix opts));
     CreateWriteStream (source (this s0)) "a"; SetImmediate; ScheduleJob "* * * * *"]
    ++ run_calls actions s0.
Proof.
  intros Hnew. unfold since_boot. rewrite run_trace.
  rewrite (new_constructed opts w s0 Hnew) at 1. rewrite constructed_trace.
  rewrite <- (new_constructed opts w s0 Hnew), <- app_assoc.
  apply drop_app_length.
Qed.

(** X1.  From its construction on, an engine opens, writes, queries and
    removes only files [localPrefix/name], and every process it spawns is
    [aws s3 cp localPrefix/name s3Prefix/name] with one and the same name:
    nothing outside the local directory is touched and the remote object
    carries the name of the local file. *)
Theorem calls_stay_in_prefixes
    (opts : options) (w : world) (s0 : state) (actions : list action) :
  new opts w = Some s0 →
  quiet w →
  opt_localPrefix opts = VString (localPrefix (this s0))
  ∧ opt_s3Prefix opts = VString (s3Prefix (this s0))
  ∧ Forall (contained (localPrefix (this s0)) (s3Prefix (this s0)))
      (since_boot w (run actions s0)).
Proof.
  intros Hnew Hquiet.
  destruct (new_good opts w s0 Hnew) as (Hlocal & _ & _ & Hs3 & _).
  assert (Hlp : localPrefix (this s0) = as_string (opt_localPrefix opts))
    by (rewrite (new_constructed opts w s0 Hnew); reflexivity).
  assert (Hsp : s3Prefix (this s0) = as_string (opt_s3Prefix opts))
    by (rewrite (new_constructed opts w s0 Hnew); reflexivity).
  split; [| split].
  - apply bad_localPrefix_spec in Hlocal as [lp Hlocal]. rewrite Hlp, Hlocal. reflexivity.
  - unfold bad_s3Prefix in Hs3. apply orb_false_elim in Hs3 as [Hs3 _].
    rewrite Hsp. destruct (opt_s3Prefix opts); try discriminate Hs3. reflexivity.
  - rewrite Hlp, Hsp, (since_boot_run opts w s0 actions Hnew).
    pose proof (new_tidy opts w s0 Hnew Hquiet) as Htidy.
    destruct (run_tidy _ _ actions s0 Htidy) as [_ Hcalls].
    apply Forall_app. split; [| exact Hcalls].
    destruct Htidy as (Hlp' & _ & (h & name & _ & _ & _ & _ & Hsource & _) & _).
    repeat constructor. exists name. rewrite Hsource, Hlp'. reflexivity.
Qed.

Lemma boot_quiet : quiet boot.
Proof. repeat split. Qed.

Lemma calls_stay_in_prefixes_witness :
  Forall (contained (localPrefix (this started)) (s3Prefix (this started)))
    (since_boot boot (run [CallWrite "hello"; Advance 61000; Tick; StatDone None;
                           ChildClose 0 (Exited 0)] started)).
Proof.
  exact (proj2 (proj2 (calls_stay_in_prefixes sample boot started
    [CallWrite "hello"; Advance 61000; Tick; StatDone None; ChildClose 0 (Exited 0)]
    started_new boot_quiet))).
Defined.

(** ** Files *)

Lemma touched_same (path : string) (files : gmap string Z) :
  touched path files !! path = Some (default 0 (files !! path)).
Proof.
  unfold touched. destruct (files !! path) as [n |] eqn:E; cbn.
  - exact E.
  - apply lookup_insert_eq.
Qed.

Lemma touched_other (path other : string) (files : gmap string Z) :
  path ≠ other → touched path files !! other = files !! other.
Proof.
  intros Hne. unfold touched. destruct (files !! path); [reflexivity |].
  apply lookup_insert_ne, Hne.
Qed.

Lemma rotate_fs (why : reason) (s : state) :
  fs (env (rotate why s)) =
    if not_empty (empty (this s))
    then touched (next_source s) (fs (env s))
    else if callback_required (env s)
         then touched (next_source s) (fs (env s))
         else delete (source (this s)) (touched (next_source s) (fs (env s))).
Proof. open_state s; destruct emp as [[|] |]; reflexivity. Qed.

Lemma rotate_source (why : reason) (s : state) :
  source (this (rotate why s)) = next_source s.
Proof. rewrite rotate_this, createStream_this. reflexivity. Qed.

Lemma write_fs (data : string) (s : state) (h : handle) :
  stream (this s) = Some h →
  fs (env (write data s)) = alter (λ size, size + bytes data) (h_path h) (fs (env s)).
Proof. intros H. unfold write. rewrite H. reflexivity. Qed.

Lemma length_append (a b : string) :
  String.length (a +:+ b) = (String.length a + String.length b)%nat.
Proof.
  induction a as [| x a IH]; [reflexivity |].
  change (S (String.length (a +:+ b)) = S (String.length a + String.length b)).
  rewrite IH. reflexivity.
Qed.

Lemma write_size (data : string) (s : state) :
  active s →
  current_size (write data s) = (λ size, size + bytes data) <$> current_size s.
Proof.
  intros (h & name & _ & Hstream & Hpath & _).
  unfold current_size. rewrite (write_fs data s h Hstream), Hpath.
  assert (Hthis : source (this (write data s)) = source (this s))
    by (unfold write; rewrite Hstream; reflexivity).
  rewrite Hthis. apply lookup_alter_eq.
Qed.

Lemma write_active (data : string) (s : state) : active s → active (write data s).
Proof. exact (step_active (CallWrite data) s). Qed.

(** X2.  On an engine in any state it can reach, [write(data)] makes one
    call, a write of [data] on the stream of the current file, and leaves the
    fields of the engine alone.  The current file grows by the bytes of
    [data] and no other file changes; when the current file has been removed
    from the directory it stays removed.  Two writes in a row leave the file
    as one write of the concatenation does. *)
Theorem write_appends
    (opts : options) (w : world) (s0 : state) (actions : list action) (data : string) :
  new opts w = Some s0 →
  opened w = [] →
  let s := run actions s0 in
  this (write data s) = this s
  ∧ (∃ h, stream (this s) = Some h ∧ h_path h = source (this s)
          ∧ since s (write data s) = [StreamWrite h data])
  ∧ current_size (write data s) = (λ size, size + bytes data) <$> current_size s
  ∧ (∀ path, path ≠ source (this s) →
             fs (env (write data s)) !! path = fs (env s) !! path)
  ∧ (∀ more, current_size (write more (write data s)) =
             current_size (write (data +:+ more) s)).
Proof.
  intros Hnew Hopened. cbn zeta.
  pose proof (run_active actions s0 (new_active opts w s0 Hnew Hopened)) as Hactive.
  set (s := run actions s0) in *.
  pose proof Hactive as (h & name & _ & Hstream & Hpath & _).
  split; [unfold write; rewrite Hstream; reflexivity |].
  split; [exists h; split; [exact Hstream |]; split; [exact Hpath |];
          apply since_app; unfold write; rewrite Hstream; reflexivity |].
  split; [apply write_size, Hactive |]. split.
  - intros path Hne. rewrite (write_fs data s h Hstream), Hpath.
    apply lookup_alter_ne. congruence.
  - intros more.
    rewrite (write_size more _ (write_active data s Hactive)), !write_size by exact Hactive.
    destruct (current_size s) as [size |]; [| reflexivity]. cbn.
    unfold bytes. rewrite length_append. f_equal. lia.
Qed.

Lemma write_appends_witness :
  current_size (write "world" (run [CallWrite "hello"] started)) =
    (λ size, size + bytes "world") <$> current_size (run [CallWrite "hello"] started).
Proof.
  destruct (write_appends sample boot started [CallWrite "hello"] "world"
              started_new eq_refl) as (_ & _ & H & _).
  exact H.
Defined.

(** ** Streams and their [created] events *)

Lemma count_app (f : effect → bool) (l l' : list effect) :
  count f (l ++ l') = (count f l + count f l')%nat.
Proof. unfold count. rewrite List.filter_app. apply length_app. Qed.

Lemma createStream_immediates (s : state) :
  immediates (env (createStream s)) = S (immediates (env s)).
Proof. open_state s; reflexivity. Qed.

Lemma scheduled_immediates (spec : string) (s : state) :
  immediates (env (on_env (schedule spec) s)) = immediates (env s).
Proof. destruct s as [t w]. reflexivity. Qed.

Lemma constructed_immediates (opts : options) (w : world) :
  immediates (env (constructed opts w)) = S (immediates w).
Proof.
  unfold constructed. cbv zeta.
  rewrite scheduled_immediates, createStream_immediates. reflexivity.
Qed.

Lemma rotate_immediates (why : reason) (s : state) :
  immediates (env (rotate why s)) = S (immediates (env s)).
Proof. open_state s; destruct emp as [[|] |]; reflexivity. Qed.

Lemma rotate_counts (why : reason) (s : state) :
  count is_open (announce why s :: swap_calls s ++ handoff_calls s) = 1%nat
  ∧ count is_created (announce why s :: swap_calls s ++ handoff_calls s) = 0%nat.
Proof. open_state s; destruct emp as [[|] |]; split; reflexivity. Qed.

Lemma ticks_immediates (l : list string) (s : state) :
  immediates (env (List.fold_left (λ s' _, checkAndRotate s') l s)) = immediates (env s)
  ∧ jobs (env (List.fold_left (λ s' _, checkAndRotate s') l s)) = jobs (env s).
Proof.
  revert s. induction l as [| spec l IH]; intros s; [split; reflexivity |].
  cbn. destruct (IH (checkAndRotate s)) as [-> ->]. split; reflexivity.
Qed.

Lemma ticks_counts (l : list string) (path : string) :
  count is_open (List.map (λ _, Stat path) l) = 0%nat
  ∧ count is_created (List.map (λ _, Stat path) l) = 0%nat.
Proof. induction l as [| spec l IH]; [split; reflexivity | exact IH]. Qed.

Lemma callback_pending (r : stat_result) (s : state) :
  (immediates (env (stat_callback r s)) + count is_created (callback_calls r s) =
   immediates (env s) + count is_open (callback_calls r s))%nat.
Proof.
  destruct r as [error | size]; [reflexivity |].
  rewrite stat_callback_ok. unfold callback_calls.
  destruct (num_gt _ (maxFileAge _)).
  - rewrite rotate_immediates. destruct (rotate_counts max_age (checked size s)) as [-> ->].
    cbn. lia.
  - destruct (num_gt _ (maxFileSize _)); [| reflexivity].
    rewrite rotate_immediates. destruct (rotate_counts max_size (checked size s)) as [-> ->].
    cbn. lia.
Qed.

Lemma step_pending (a : action) (s : state) :
  (immediates (env (step a s)) + count is_created (step_calls a s) =
   immediates (env s) + count is_open (step_calls a s))%nat.
Proof.
  destruct a as [data | | | failure | | i data | i data | i code | ms | path | ear | ear];
    unfold step, step_calls.
  - unfold write. destruct (stream (this s)); reflexivity.
  - unfold flush. rewrite rotate_immediates.
    destruct (rotate_counts flush_reason s) as [-> ->]. lia.
  - rewrite (proj1 (ticks_immediates _ _)).
    destruct (ticks_counts (jobs (env s)) (source (this s))) as [-> ->]. reflexivity.
  - destruct (stats (env s)) as [| path rest]; [reflexivity |].
    exact (callback_pending (stat_of failure path (env s)) (on_env (set_stats rest) s)).
  - destruct (immediates (env s)) as [| n] eqn:E; cbn; [rewrite E; reflexivity | lia].
  - destruct (children (env s) !! i); reflexivity.
  - destruct (children (env s) !! i); reflexivity.
  - destruct (children (env s) !! i) as [c |]; [| reflexivity].
    unfold close_callback, close_calls. destruct (code_nonzero code); reflexivity.
  - reflexivity.
  - reflexivity.
  - destruct ear; reflexivity.
  - destruct ear; reflexivity.
Qed.

Lemma run_pending (actions : list action) (s : state) :
  (immediates (env (run actions s)) + count is_created (run_calls actions s) =
   immediates (env s) + count is_open (run_calls actions s))%nat.
Proof.
  revert s. induction actions as [| a actions IH]; intros s; [reflexivity |].
  change (run (a :: actions) s) with (run actions (step a s)).
  change (run_calls (a :: actions) s)
    with (step_calls a s ++ run_calls actions (step a s)).
  rewrite !count_app. pose proof (IH (step a s)). pose proof (step_pending a s). lia.
Qed.

(** X5.  Every stream the engine opens has its [created] event, sent or
    still queued: at any moment the streams opened since the construction
    are as many as the [created] events emitted plus the [setImmediate]
    callbacks waiting. *)
Theorem created_events_accounted
    (opts : options) (w : world) (s0 : state) (actions : list action) :
  new opts w = Some s0 →
  quiet w →
  let s := run actions s0 in
  count is_open (since_boot w s) =
    (count is_created (since_boot w s) + immediates (env s))%nat.
Proof.
  intros Hnew (_ & _ & _ & _ & Hnone). cbn zeta.
  rewrite (since_boot_run opts w s0 actions Hnew), !count_app.
  pose proof (run_pending actions s0) as Hrun.
  assert (H0 : immediates (env s0) = 1%nat).
  { rewrite (new_constructed opts w s0 Hnew), constructed_immediates, Hnone.
    reflexivity. }
  change (count is_open [MkdirpSync _; CreateWriteStream _ _; SetImmediate; ScheduleJob _])
    with 1%nat.
  change (count is_created [MkdirpSync _; CreateWriteStream _ _; SetImmediate; ScheduleJob _])
    with 0%nat.
  lia.
Qed.

Lemma created_events_accounted_witness :
  count is_open (since_boot boot (run [CallFlush; Immediate; CallFlush] started)) =
    (count is_created (since_boot boot (run [CallFlush; Immediate; CallFlush] started))
     + immediates (env (run [CallFlush; Immediate; CallFlush] started)))%nat.
Proof.
  exact (created_events_accounted sample boot started [CallFlush; Immediate; CallFlush]
           started_new boot_quiet).
Defined.

Lemma run_immediates (k : nat) (s : state) :
  (k ≤ immediates (env s))%nat →
  run_calls (replicate k Immediate) s = replicate k (created_event s)
  ∧ this (run (replicate k Immediate) s) = this s.
Proof.
  revert s. induction k as [| k IH]; intros s Hk; [split; reflexivity |].
  destruct (immediates (env s)) as [| n] eqn:Hn; [lia |].
  assert (Hstep : step Immediate s = created_callback (on_env (set_immediates n) s))
    by (unfold step; rewrite Hn; reflexivity).
  assert (Hsame : this (step Immediate s) = this s) by (rewrite Hstep; reflexivity).
  destruct (IH (step Immediate s)) as [Hcalls Hthis].
  { rewrite Hstep. cbn. lia. }
  change (run_calls (replicate (S k) Immediate) s)
    with (step_calls Immediate s ++ run_calls (replicate k Immediate) (step Immediate s)).
  change (run (replicate (S k) Immediate) s)
    with (run (replicate k Immediate) (step Immediate s)).
  rewrite Hcalls, Hthis. split; [| exact Hsame].
  unfold step_calls. rewrite Hn. unfold created_event. rewrite Hsame. reflexivity.
Qed.

(** X6.  The [created] event names the file that is current when the
    callback runs, not the file the callback was queued for.  After [n]
    flushes in a row, the callbacks then waiting all emit the same event,
    that of the last file opened: the files opened by the earlier flushes
    are never announced. *)
Theorem created_events_name_current_file (s : state) (n : nat) :
  let s' := run (replicate n CallFlush) s in
  let k := immediates (env s') in
  k = (n + immediates (env s))%nat
  ∧ since s' (run (replicate k Immediate) s') = replicate k (created_event s').
Proof.
  cbn zeta. split.
  - revert s. induction n as [| n IH]; intros s; [reflexivity |].
    cbn. change (List.fold_left _ (replicate n CallFlush) (flush s))
      with (run (replicate n CallFlush) (flush s)).
    rewrite IH. unfold flush. rewrite rotate_immediates. lia.
  - rewrite run_since. apply run_immediates. lia.
Qed.

(** ** The scheduled job *)

Lemma rotate_jobs (why : reason) (s : state) :
  jobs (env (rotate why s)) = jobs (env s).
Proof. open_state s; destruct emp as [[|] |]; reflexivity. Qed.

Lemma step_jobs (a : action) (s : state) :
  jobs (env (step a s)) = jobs (env s).
Proof.
  destruct a as [data | | | failure | | i data | i data | i code | ms | path | ear | ear];
    unfold step.
  - unfold write. destruct (stream (this s)); reflexivity.
  - apply rotate_jobs.
  - apply ticks_immediates.
  - destruct (stats (env s)) as [| path rest]; [reflexivity |].
    destruct (stat_of failure path (env s)) as [error | size]; [reflexivity |].
    rewrite stat_callback_ok.
    destruct (num_gt _ (maxFileAge _)); [rewrite rotate_jobs; reflexivity |].
    destruct (num_gt _ (maxFileSize _)); [rewrite rotate_jobs |]; reflexivity.
  - destruct (immediates (env s)); reflexivity.
  - destruct (children (env s) !! i); reflexivity.
  - destruct (children (env s) !! i); reflexivity.
  - destruct (children (env s) !! i) as [c |]; [| reflexivity].
    unfold close_callback. destruct (code_nonzero code); reflexivity.
  - reflexivity.
  - reflexivity.
  - destruct ear; reflexivity.
  - destruct ear; reflexivity.
Qed.

Lemma run_jobs (actions : list action) (s : state) :
  jobs (env (run actions s)) = jobs (env s).
Proof.
  revert s. induction actions as [| a actions IH]; intros s; [reflexivity |].
  change (run (a :: actions) s) with (run actions (step a s)).
  rewrite IH. apply step_jobs.
Qed.

Lemma scheduled_jobs (spec : string) (s : state) :
  jobs (env (on_env (schedule spec) s)) = jobs (env s) ++ [spec].
Proof. destruct s as [t w]. reflexivity. Qed.

Lemma createStream_jobs (s : state) : jobs (env (createStream s)) = jobs (env s).
Proof. open_state s; reflexivity. Qed.

Lemma constructed_jobs (opts : options) (w : world) :
  jobs (env (constructed opts w)) = jobs w ++ ["* * * * *"].
Proof.
  unfold constructed. cbv zeta.
  rewrite scheduled_jobs, createStream_jobs. reflexivity.
Qed.

(** X7.  The constructor registers one job, on the schedule [* * * * *], and
    no method or callback registers another or removes it.  Each time the
    scheduler runs the job, the engine makes one call, a size query on the
    path of the file then current, and changes nothing else of itself: what
    follows is decided when the query is answered. *)
Theorem one_job_one_query
    (opts : options) (w : world) (s0 : state) (actions : list action) :
  new opts w = Some s0 →
  quiet w →
  let s := run actions s0 in
  jobs (env s) = ["* * * * *"]
  ∧ this (step Tick s) = this s
  ∧ since s (step Tick s) = [Stat (source (this s))]
  ∧ stats (env (step Tick s)) = stats (env s) ++ [source (this s)]
  ∧ fs (env (step Tick s)) = fs (env s)
  ∧ children (env (step Tick s)) = children (env s).
Proof.
  intros Hnew (_ & _ & _ & Hjobs & _). cbn zeta.
  assert (H : jobs (env (run actions s0)) = ["* * * * *"]).
  { rewrite run_jobs, (new_constructed opts w s0 Hnew), constructed_jobs, Hjobs.
    reflexivity. }
  split; [exact H |].
  set (s := run actions s0) in *.
  assert (Hstep : step Tick s = checkAndRotate s) by (unfold step; rewrite H; reflexivity).
  rewrite Hstep. split; [reflexivity |]. split; [apply since_app; reflexivity |].
  repeat split.
Qed.

Lemma one_job_one_query_witness :
  since (run [CallFlush; Advance 60000] started)
        (step Tick (run [CallFlush; Advance 60000] started)) =
    [Stat (source (this (run [CallFlush; Advance 60000] started)))].
Proof.
  destruct (one_job_one_query sample boot started [CallFlush; Advance 60000]
              started_new boot_quiet) as (_ & _ & H & _).
  exact H.
Defined.

(** ** A rotation decided by the size check *)



(** ** Thresholds *)

Lemma num_gt_infinity (a : number) : num_gt a PosInf = false.
Proof. destruct a; reflexivity. Qed.

Lemma rotations_stats (l : list string) (path : string) :
  rotations (List.map (λ _, Stat path) l) = [].
Proof. induction l as [| spec l IH]; [reflexivity | exact IH]. Qed.

Lemma rotations_message (c : channel) (m : string) : rotations [Emit c (msg m)] = [].
Proof.
  destruct c; [| reflexivity]. unfold rotations. cbn.
  destruct (String.eqb m "Rotating stream"); reflexivity.
Qed.

Lemma step_rotations_calls (a : action) (s : state) :
  rotations (step_calls a s) = step_rotations a s.
Proof.
  destruct a as [data | | | failure | | i data | i data | i code | ms | path | ear | ear];
    unfold step_calls, step_rotations.
  - destruct (stream (this s)); reflexivity.
  - apply rotations_rotate.
  - apply rotations_stats.
  - destruct (stats (env s)) as [| path rest]; [reflexivity |].
    destruct (stat_of failure path (env s)) as [error | size]; [reflexivity |].
    unfold callback_calls.
    destruct (num_gt _ (maxFileAge _)); [apply rotations_rotate |].
    destruct (num_gt _ (maxFileSize _)); [apply rotations_rotate | reflexivity].
  - destruct (immediates (env s)); reflexivity.
  - destruct (children (env s) !! i); [apply rotations_message | reflexivity].
  - destruct (children (env s) !! i); reflexivity.
  - destruct (children (env s) !! i) as [c |]; [| reflexivity].
    unfold close_calls. destruct (code_nonzero code); reflexivity.
  - reflexivity.
  - reflexivity.
  - reflexivity.
  - reflexivity.
Qed.

Lemma step_thresholds (a : action) (s : state) :
  maxFileAge (this (step a s)) = maxFileAge (this s)
  ∧ maxFileSize (this (step a s)) = maxFileSize (this s).
Proof.
  pose proof (step_config a s) as H. unfold config in H.
  injection H as _ _ Hsize Hage _. split; assumption.
Qed.

Lemma run_rotations_bounded (P : reason → Prop) (actions : list action) (s : state) :
  (∀ s', maxFileAge (this s') = maxFileAge (this s) →
         maxFileSize (this s') = maxFileSize (this s) →
         ∀ a, Forall P (step_rotations a s')) →
  Forall P (rotations (run_calls actions s)).
Proof.
  intros Hstep. revert s Hstep.
  induction actions as [| a actions IH]; intros s Hstep; [constructor |].
  change (run_calls (a :: actions) s)
    with (step_calls a s ++ run_calls actions (step a s)).
  rewrite rotations_app, step_rotations_calls. apply Forall_app. split.
  - apply Hstep; reflexivity.
  - apply IH. intros s' Hage Hsize. destruct (step_thresholds a s) as [Ha Hs].
    apply Hstep; congruence.
Qed.

Lemma new_returns (opts : options) (w : world) :
  first_failure opts = None → new opts w = Some (constructed opts w).
Proof.
  intros H. unfold new. rewrite constructor_returns, state_eta; [reflexivity |].
  unfold first_failure in H.
  destruct (bad_localPrefix opts); [discriminate |].
  destruct (bad_threshold (opt_maxFileSize opts)); [discriminate |].
  destruct (bad_threshold (opt_maxFileAge opts)); [discriminate |].
  destruct (bad_s3Prefix opts); [discriminate |].
  destruct (bad_createFileName opts); [discriminate | reflexivity].
Qed.

(** X9.  [Infinity] is a number greater than 0, so the constructor accepts it
    for either threshold, and no number exceeds it: an engine built with
    [maxFileAge: Infinity] never rotates for age, and one built with
    [maxFileSize: Infinity] never rotates for size, whatever happens to it. *)
Theorem infinite_threshold_never_fires
    (opts : options) (w : world) (s0 : state) (actions : list action) :
  new opts w = Some s0 →
  (opt_maxFileAge opts = VNumber PosInf →
   max_age ∉ rotations (since s0 (run actions s0)))
  ∧ (opt_maxFileSize opts = VNumber PosInf →
     max_size ∉ rotations (since s0 (run actions s0))).
Proof.
  intros Hnew. rewrite run_since.
  assert (Hage : maxFileAge (this s0) = as_number (opt_maxFileAge opts))
    by (rewrite (new_constructed opts w s0 Hnew); reflexivity).
  assert (Hsize : maxFileSize (this s0) = as_number (opt_maxFileSize opts))
    by (rewrite (new_constructed opts w s0 Hnew); reflexivity).
  split; intros Hinf; rewrite Hinf in *; cbn in Hage, Hsize.
  - assert (H : Forall (λ why, why ≠ max_age) (rotations (run_calls actions s0))).
    { apply run_rotations_bounded.
      intros s' Hage' _ a. rewrite Hage in Hage'.
      destruct a; unfold step_rotations; try apply Forall_nil_2;
        [apply Forall_singleton; discriminate |].
      destruct (stats (env s')); [constructor |].
      destruct (stat_of _ _ _); [constructor |].
      rewrite Hage', num_gt_infinity.
      destruct (num_gt _ _); [apply Forall_singleton; discriminate | constructor]. }
    intros Hin. rewrite Forall_forall in H. exact (H _ Hin eq_refl).
  - assert (H : Forall (λ why, why ≠ max_size) (rotations (run_calls actions s0))).
    { apply run_rotations_bounded.
      intros s' _ Hsize' a. rewrite Hsize in Hsize'.
      destruct a; unfold step_rotations; try apply Forall_nil_2;
        [apply Forall_singleton; discriminate |].
      destruct (stats (env s')); [constructor |].
      destruct (stat_of _ _ _); [constructor |].
      rewrite Hsize', num_gt_infinity.
      destruct (num_gt _ _); [apply Forall_singleton; discriminate | constructor]. }
    intros Hin. rewrite Forall_forall in H. exact (H _ Hin eq_refl).
Qed.

Lemma infinite_threshold_never_fires_witness :
  max_age ∉ rotations (since (constructed ageless boot)
                         (run [Advance 1000000000000; Tick; StatDone None]
                            (constructed ageless boot))).
Proof.
  exact (proj1 (infinite_threshold_never_fires ageless boot (constructed ageless boot)
                  [Advance 1000000000000; Tick; StatDone None]
                  (new_returns ageless boot ltac:(vm_compute; reflexivity)))
           eq_refl).
Defined.

(** ** The messages of the constructor *)

Lemma indexOf_occurs (sub s : string) :
  sub ≠ EmptyString → occurs sub s → indexOf s sub ≠ -1.
Proof.
  intros Hsub [m Hm]. unfold indexOf.
  destruct (String.index 0 sub s) as [k |] eqn:Hindex; [lia |].
  exfalso. exact (String.index_correct3 0 m sub s Hindex Hsub (Nat.le_0_l m) Hm).
Qed.

Lemma bad_s3Prefix_spec (opts : options) :
  bad_s3Prefix opts = false ↔ ∃ s, opt_s3Prefix opts = VString s ∧ occurs "s3://" s.
Proof.
  unfold bad_s3Prefix. split.
  - intros H. apply orb_false_elim in H as [Htype Hindex].
    destruct (opt_s3Prefix opts) as [| | b | n | s | f |]; try discriminate Htype.
    exists s. split; [reflexivity |]. cbn in Hindex. apply Z.eqb_neq in Hindex.
    unfold indexOf in Hindex.
    destruct (String.index 0 "s3://" s) as [m |] eqn:E; [| contradiction].
    exists m. exact (String.index_correct1 0 m "s3://" s E).
  - intros (s & -> & Hoccurs). cbn. apply Z.eqb_neq.
    apply indexOf_occurs; [discriminate | exact Hoccurs].
Qed.

Lemma constructor_first_failure (opts : options) (w : world) :
  constructor opts w =
    match first_failure opts with
    | Some message => (Throw message, w)
    | None => (Return (this (constructed opts w)), env (constructed opts w))
    end.
Proof.
  unfold first_failure.
  destruct (bad_localPrefix opts) eqn:H1;
    [unfold constructor, mbind, M_bind, bind, when, throw;
     unfold bad_localPrefix in H1; rewrite H1; reflexivity |].
  destruct (bad_threshold (opt_maxFileSize opts)) eqn:H2;
    [unfold constructor, mbind, M_bind, bind, when, throw;
     unfold bad_localPrefix in H1; unfold bad_threshold in H2;
     rewrite H1, H2; reflexivity |].
  destruct (bad_threshold (opt_maxFileAge opts)) eqn:H3;
    [unfold constructor, mbind, M_bind, bind, when, throw;
     unfold bad_localPrefix in H1; unfold bad_threshold in H2, H3;
     rewrite H1, H2, H3; reflexivity |].
  destruct (bad_s3Prefix opts) eqn:H4;
    [unfold constructor, mbind, M_bind, bind, when, throw;
     unfold bad_localPrefix in H1; unfold bad_threshold in H2, H3;
     unfold bad_s3Prefix in H4; rewrite H1, H2, H3, H4; reflexivity |].
  destruct (bad_createFileName opts) eqn:H5;
    [unfold constructor, mbind, M_bind, bind, when, throw;
     unfold bad_localPrefix in H1; unfold bad_threshold in H2, H3;
     unfold bad_s3Prefix in H4; unfold bad_createFileName in H5;
     rewrite H1, H2, H3, H4, H5; reflexivity |].
  apply constructor_returns. rewrite H1, H2, H3, H4, H5. reflexivity.
Qed.

(** X10.  The five tests of the constructor are made in the order
    [localPrefix], [maxFileSize], [maxFileAge], [s3Prefix], [createFileName],
    and the first that fails decides the message of the error thrown; the
    world is left as it was.  The test of [s3Prefix] passes exactly the
    strings in which [s3://] occurs, at the start or further on.  Options
    that pass the five tests give an engine. *)
Theorem validation_messages (opts : options) (w : world) :
  let local := is_string (opt_localPrefix opts) in
  let size := is_positive_number (opt_maxFileSize opts) in
  let age := is_positive_number (opt_maxFileAge opts) in
  let remote := ∃ s, opt_s3Prefix opts = VString s ∧ occurs "s3://" s in
  let name := optional_function (opt_createFileName opts) in
  (¬ local → constructor opts w = (Throw "localPrefix must be a string", w))
  ∧ (local → ¬ size →
     constructor opts w = (Throw "maxFileSize must be a number greater than 0", w))
  ∧ (local → size → ¬ age →
     constructor opts w = (Throw "maxFileAge must be a number greater than 0", w))
  ∧ (local → size → age → ¬ remote →
     constructor opts w =
       (Throw "s3Prefix must be a valid s3 prefix in the form: s3://<bucket><prefix>", w))
  ∧ (local → size → age → remote → ¬ name →
     constructor opts w = (Throw "createFileName must be a function", w))
  ∧ (local → size → age → remote → name →
     new opts w = Some (constructed opts w)).
Proof.
  cbn zeta. rewrite constructor_first_failure. unfold first_failure.
  pose proof (bad_localPrefix_spec opts) as H1.
  pose proof (bad_threshold_spec (opt_maxFileSize opts)) as H2.
  pose proof (bad_threshold_spec (opt_maxFileAge opts)) as H3.
  pose proof (bad_s3Prefix_spec opts) as H4.
  pose proof (bad_createFileName_spec opts) as H5.
  assert (Hnew : first_failure opts = None → new opts w = Some (constructed opts w))
    by apply new_returns.
  unfold first_failure in Hnew.
  destruct (bad_localPrefix opts).
  { repeat split; try reflexivity; intros Hlocal; apply H1 in Hlocal; discriminate. }
  destruct (bad_threshold (opt_maxFileSize opts)).
  { repeat split; try reflexivity.
    - intros Hno. exfalso. apply Hno, H1. reflexivity.
    - intros _ Hsize. apply H2 in Hsize. discriminate.
    - intros _ Hsize. apply H2 in Hsize. discriminate.
    - intros _ Hsize. apply H2 in Hsize. discriminate.
    - intros _ Hsize. apply H2 in Hsize. discriminate. }
  destruct (bad_threshold (opt_maxFileAge opts)).
  { repeat split; try reflexivity.
    - intros Hno. exfalso. apply Hno, H1. reflexivity.
    - intros _ Hno. exfalso. apply Hno, H2. reflexivity.
    - intros _ _ Hage. apply H3 in Hage. discriminate.
    - intros _ _ Hage. apply H3 in Hage. discriminate.
    - intros _ _ Hage. apply H3 in Hage. discriminate. }
  destruct (bad_s3Prefix opts).
  { repeat split; try reflexivity.
    - intros Hno. exfalso. apply Hno, H1. reflexivity.
    - intros _ Hno. exfalso. apply Hno, H2. reflexivity.
    - intros _ _ Hno. exfalso. apply Hno, H3. reflexivity.
    - intros _ _ _ Hremote. apply H4 in Hremote. discriminate.
    - intros _ _ _ Hremote. apply H4 in Hremote. discriminate. }
  destruct (bad_createFileName opts).
  { repeat split; try reflexivity.
    - intros Hno. exfalso. apply Hno, H1. reflexivity.
    - intros _ Hno. exfalso. apply Hno, H2. reflexivity.
    - intros _ _ Hno. exfalso. apply Hno, H3. reflexivity.
    - intros _ _ _ Hno. exfalso. apply Hno, H4. reflexivity.
    - intros _ _ _ _ Hname. apply H5 in Hname. discriminate. }
  repeat split.
  - intros Hno. exfalso. apply Hno, H1. reflexivity.
  - intros _ Hno. exfalso. apply Hno, H2. reflexivity.
  - intros _ _ Hno. exfalso. apply Hno, H3. reflexivity.
  - intros _ _ _ Hno. exfalso. apply Hno, H4. reflexivity.
  - intros _ _ _ _ Hno. exfalso. apply Hno, H5. reflexivity.
  - intros _ _ _ _ _. apply Hnew. reflexivity.
Qed.

Lemma validation_messages_witness :
  constructor zero_size boot =
    (Throw "maxFileSize must be a number greater than 0", boot).
Proof.
  destruct (validation_messages zero_size boot) as (_ & H & _).
  apply H.
  - exists "logs". reflexivity.
  - intros [H0 | (q & H0 & Hq)]; [discriminate H0 |].
    injection H0 as <-. revert Hq. apply Qlt_irrefl.
Defined.

(** ** A size query answered after a flush *)

Lemma since_ext (a b c : state) :
  trace (env a) = trace (env b) → since a c = since b c.
Proof. intros H. unfold since. rewrite H. reflexivity. Qed.

Lemma rotate_now (why : reason) (s : state) :
  now (env (rotate why s)) = now (env s)
  ∧ created (this (rotate why s)) = now (env s)
  ∧ maxFileAge (this (rotate why s)) = maxFileAge (this s)
  ∧ maxFileSize (this (rotate why s)) = maxFileSize (this s).
Proof. open_state s; destruct emp as [[|] |]; repeat split. Qed.

(** X11.  The callback of [checkAndRotate] judges the file that is current
    when the answer arrives by the size of the file that was current when
    the question was asked.  When [flush] is called between the two, and the
    flushed file was above [maxFileSize], the new file is rotated at once for
    its size and handed to [aws s3 cp], although nothing was written to
    it. *)
Theorem query_outlives_flush (s : state) (size : Z) :
  stats (env s) = [] →
  current_size s = Some size →
  size ≠ 0 →
  num_gt (of_Z size) (maxFileSize (this s)) = true →
  num_gt (of_Z 0) (maxFileAge (this s)) = false →
  not_empty (empty (this s)) = true →
  next_source s ≠ source (this s) →
  let s1 := flush (checkAndRotate s) in
  let s2 := step (StatDone None) s1 in
  source (this s1) = next_source s
  ∧ current_size s1 = Some (default 0 (fs (env s) !! next_source s))
  ∧ rotations (since s1 s2) = [max_size]
  ∧ superseded (since s1 s2) = [(Some (source (this s1)), Some (destination (this s1)))]
  ∧ uploads (since s1 s2) = [(source (this s1), destination (this s1))].
Proof.
  intros Hstats Hsize Hnonzero Hlarge Hyoung Hflag Hfresh. cbn zeta.
  set (s0 := checkAndRotate s).
  change (flush s0) with (rotate flush_reason s0).
  set (s1 := rotate flush_reason s0).
  assert (Hsource : source (this s1) = next_source s)
    by exact (rotate_source flush_reason s0).
  assert (Hfs : fs (env s1) = touched (next_source s) (fs (env s))).
  { unfold s1. rewrite rotate_fs.
    change (empty (this s0)) with (empty (this s)). rewrite Hflag. reflexivity. }
  assert (Hqueue : stats (env s1) = [source (this s)]).
  { unfold s1. rewrite rotate_stats. unfold s0. cbn. rewrite Hstats. reflexivity. }
  destruct (rotate_now flush_reason s0) as (Hnow & Hcreated & Hage & Hmax).
  fold s1 in Hnow, Hcreated, Hage, Hmax.
  split; [exact Hsource |]. split.
  { unfold current_size. rewrite Hsource, Hfs. apply touched_same. }
  set (s1' := on_env (set_stats []) s1).
  assert (Hstep : step (StatDone None) s1 = stat_callback (StatOk size) s1').
  { unfold step, stat_of. rewrite Hqueue, Hfs, touched_other by exact Hfresh.
    unfold current_size in Hsize. rewrite Hsize. reflexivity. }
  rewrite Hstep, (since_ext s1 s1') by reflexivity.
  assert (Hzero : ageInSeconds s1' = 0).
  { unfold ageInSeconds. change (now (env s1')) with (now (env s1)).
    change (created (this s1')) with (created (this s1)).
    rewrite Hnow, Hcreated, Z.sub_diag. reflexivity. }
  assert (Hok : stat_callback (StatOk size) s1' = rotate max_size (checked size s1')).
  { rewrite stat_callback_ok, Hzero.
    change (maxFileAge (this s1')) with (maxFileAge (this s1)).
    change (maxFileSize (this s1')) with (maxFileSize (this s1)).
    rewrite Hage, Hmax. change (maxFileAge (this s0)) with (maxFileAge (this s)).
    change (maxFileSize (this s0)) with (maxFileSize (this s)).
    rewrite Hyoung, Hlarge. reflexivity. }
  rewrite Hok, (since_ext s1' (checked size s1')) by reflexivity.
  rewrite uploads_rotate, rotate_since, rotations_rotate, superseded_rotate.
  change (empty (this (checked size s1'))) with (Some (size =? 0)).
  apply Z.eqb_neq in Hnonzero. rewrite Hnonzero.
  repeat split.
Qed.

Lemma query_outlives_flush_witness :
  current_size (flush (checkAndRotate large_file)) = Some 0
  ∧ uploads (since (flush (checkAndRotate large_file))
               (step (StatDone None) (flush (checkAndRotate large_file)))) =
      [("logs/2014-09-08T13:02:22+00:00", "s3://bucket/logs/2014-09-08T13:02:22+00:00")].
Proof.
  destruct (query_outlives_flush large_file 12
              ltac:(vm_compute; reflexivity) ltac:(vm_compute; reflexivity)
              ltac:(discriminate) ltac:(vm_compute; reflexivity)
              ltac:(vm_compute; reflexivity) ltac:(vm_compute; reflexivity)
              ltac:(vm_compute; discriminate)) as (_ & Hsize & _ & _ & Hup).
  split.
  - vm_compute in Hsize. vm_compute. exact Hsize.
  - vm_compute in Hup. vm_compute. exact Hup.
Defined.

(** ** Uploads in flight *)

Lemma stat_callback_children (r : stat_result) (s : state) :
  ∃ added, children (env (stat_callback r s)) = children (env s) ++ added.
Proof.
  destruct r as [error | size]; [exists []; symmetry; apply app_nil_r |].
  rewrite stat_callback_ok.
  destruct (num_gt _ (maxFileAge _));
    [eexists; exact (rotate_children max_age (checked size s)) |].
  destruct (num_gt _ (maxFileSize _));
    [eexists; exact (rotate_children max_size (checked size s)) |].
  exists []. symmetry. apply app_nil_r.
Qed.

Lemma step_children (a : action) (s : state) :
  is_close a = false →
  ∃ added, children (env (step a s)) = children (env s) ++ added.
Proof.
  intros Ha.
  destruct a as [data | | | failure | | i data | i data | i code | ms | path | ear | ear];
    try discriminate Ha; unfold step.
  - exists []. unfold write. destruct (stream (this s)); symmetry; apply app_nil_r.
  - eexists. apply rotate_children.
  - exists []. rewrite (proj2 (ticks_stats _ _)). symmetry. apply app_nil_r.
  - destruct (stats (env s)) as [| path rest]; [exists []; symmetry; apply app_nil_r |].
    apply (stat_callback_children _ (on_env (set_stats rest) s)).
  - exists []. destruct (immediates (env s)); symmetry; apply app_nil_r.
  - exists []. destruct (children (env s) !! i); symmetry; apply app_nil_r.
  - exists []. destruct (children (env s) !! i); symmetry; apply app_nil_r.
  - exists []. symmetry. apply app_nil_r.
  - exists []. symmetry. apply app_nil_r.
  - exists []. destruct ear; symmetry; apply app_nil_r.
  - exists []. destruct ear; symmetry; apply app_nil_r.
Qed.

Lemma run_children (actions : list action) (s : state) :
  forallb (λ a, negb (is_close a)) actions = true →
  ∃ added, children (env (run actions s)) = children (env s) ++ added.
Proof.
  revert s. induction actions as [| a actions IH]; intros s Hall.
  - exists []. symmetry. apply app_nil_r.
  - cbn in Hall. apply andb_true_iff in Hall as [Ha Hall].
    apply negb_true_iff in Ha.
    change (run (a :: actions) s) with (run actions (step a s)).
    destruct (IH (step a s) Hall) as [later ->].
    destruct (step_children a s Ha) as [added ->].
    exists (added ++ later). symmetry. apply app_assoc.
Qed.

(** X12.  An upload reports under the source and destination it was started
    with.  Whatever the engine does while the upload runs (writes, flushes,
    checks, other uploads started), short of another upload ending, the end
    of this one emits the events of its own pair and removes, on status 0,
    its own file, not the file then current. *)
Theorem upload_keeps_its_pair
    (s : state) (i : nat) (c : child) (actions : list action) (code : exit_code) :
  children (env s) !! i = Some c →
  forallb (λ a, negb (is_close a)) actions = true →
  let s' := run actions s in
  children (env s') !! i = Some c
  ∧ since s' (step (ChildClose i code) s') = close_calls c code
  ∧ unlinked (since s' (step (ChildClose i code) s')) =
      (if code_nonzero code then [] else [c_source c]).
Proof.
  intros Hchild Hall. cbn zeta.
  destruct (run_children actions s Hall) as [added Hrun].
  assert (Hstill : children (env (run actions s)) !! i = Some c).
  { rewrite Hrun. apply lookup_app_l_Some. exact Hchild. }
  split; [exact Hstill |].
  assert (Hsince : since (run actions s) (step (ChildClose i code) (run actions s)) =
                   close_calls c code).
  { apply since_app. rewrite step_trace. unfold step_calls. rewrite Hstill. reflexivity. }
  rewrite Hsince. split; [reflexivity |].
  unfold close_calls. destruct (code_nonzero code); reflexivity.
Qed.

Lemma upload_keeps_its_pair_witness :
  unlinked (since (run [CallWrite "more"; Advance 5000; CallFlush] flushed)
              (step (ChildClose 0 (Exited 0))
                 (run [CallWrite "more"; Advance 5000; CallFlush] flushed))) =
    ["logs/2014-09-08T13:02:17+00:00"].
Proof.
  destruct (upload_keeps_its_pair flushed 0
              {| c_source := "logs/2014-09-08T13:02:17+00:00";
                 c_destination := "s3://bucket/logs/2014-09-08T13:02:17+00:00" |}
              [CallWrite "more"; Advance 5000; CallFlush] (Exited 0)
              ltac:(vm_compute; reflexivity) ltac:(reflexivity)) as (_ & _ & H).
  exact H.
Defined.

(** ** The first file *)

Lemma createStream_fs (s : state) :
  fs (env (createStream s)) = touched (next_source s) (fs (env s)).
Proof. open_state s; reflexivity. Qed.

Lemma scheduled_fs (spec : string) (s : state) :
  fs (env (on_env (schedule spec) s)) = fs (env s)
  ∧ this (on_env (schedule spec) s) = this s.
Proof. destruct s as [t w]. split; reflexivity. Qed.

(** X13.  A constructor that passes validation calls [mkdirp.sync] on the
    local prefix, opens one stream on [localPrefix/name], for the name the
    generator returns, queues one [setImmediate] callback and schedules the
    job, in this order, and emits nothing yet; [this.created] is the time of
    the call.  The [created] event of this first file is emitted by the
    first [setImmediate] callback that runs, once. *)
Theorem construction_opens_first_file (opts : options) (w : world) (s0 : state) :
  new opts w = Some s0 →
  quiet w →
  since_boot w s0 =
    [MkdirpSync (localPrefix (this s0)); CreateWriteStream (source (this s0)) "a";
     SetImmediate; ScheduleJob "* * * * *"]
  ∧ source (this s0) =
      localPrefix (this s0) +:+ "/" +:+ createFileName (this s0) (calls w) (now w)
  ∧ created (this s0) = now w
  ∧ since s0 (step Immediate s0) = [created_event s0]
  ∧ since (step Immediate s0) (step Immediate (step Immediate s0)) = [].
Proof.
  intros Hnew (_ & _ & _ & _ & Hnone).
  pose proof (since_boot_run opts w s0 [] Hnew) as Hboot.
  change (run [] s0) with s0 in Hboot. rewrite app_nil_r in Hboot.
  assert (Hone : immediates (env s0) = 1%nat)
    by (rewrite (new_constructed opts w s0 Hnew), constructed_immediates, Hnone;
        reflexivity).
  rewrite Hboot. rewrite (new_constructed opts w s0 Hnew) in *.
  unfold constructed in *. cbv zeta in *.
  set (t := assign opts (utc_offset w)) in *.
  set (s := {| this := t; env := mkdirp_sync (localPrefix t) w |}) in *.
  destruct (scheduled_fs "* * * * *" (createStream s)) as [Hfs Hthis].
  assert (Hsource : source (this (on_env (schedule "* * * * *") (createStream s))) =
                    next_source s)
    by (rewrite Hthis, createStream_this; reflexivity).
  split; [rewrite Hthis, createStream_this; reflexivity |].
  split; [rewrite Hthis, createStream_this; reflexivity |].
  split; [rewrite Hthis, createStream_this; reflexivity |].
  split.
  - apply since_app. rewrite step_trace. unfold step_calls. rewrite Hone. reflexivity.
  - apply since_app. rewrite step_trace. unfold step_calls.
    assert (Hzero : immediates (env (step Immediate
              (on_env (schedule "* * * * *") (createStream s)))) = 0%nat)
      by (unfold step; rewrite Hone; reflexivity).
    rewrite Hzero. reflexivity.
Qed.

Lemma construction_opens_first_file_witness :
  created (this started) = 1410181337000
  ∧ since started (step Immediate started) = [created_event started].
Proof.
  destruct (construction_opens_first_file sample boot started started_new boot_quiet)
    as (_ & _ & Hcreated & Hevent & _).
  split; [exact Hcreated | exact Hevent].
Defined.
